(** * Cesium3DTileStyle: the style object of the 3D Tiles styling engine

    A shallow embedding of [Scene/Cesium3DTileStyle.js]: the constructor,
    [setup], [getExpression], the property accessors and the three memoized
    shader-function accessors, over an explicit store of JavaScript objects.

    The modules the file imports but does not define ([Expression],
    [ConditionsExpression], [loadJson], [when], [clone], [defined],
    [defaultValue]) are either taken as parameters of the development
    (record [Collaborators]) or modelled next to the place they are used. *)

From stdpp Require Import list strings pretty.

Local Open Scope string_scope.

(** ** Exceptions and completions *)

Inductive exn :=
| DeveloperError (message : string)
| RuntimeError (message : string)
| TypeError (message : string)
| RangeError (message : string)
| RequestError (message : string).

(** A JavaScript call either returns a value or throws. *)
Inductive outcome (A : Type) :=
| Return (a : A)
| Throw (e : exn).
Arguments Return {A} a.
Arguments Throw {A} e.

Definition returned {A} (r : outcome A) : bool :=
  match r with Return _ => true | Throw _ => false end.

Abbreviation loc := nat (only parsing).

(** The private expression fields of the style object, [this._show] ...
    [this._meta], in the order of the constructor. *)
Inductive property :=
| _show | _color | _pointColor | _pointSize | _pointOutlineColor
| _pointOutlineWidth | _labelColor | _labelOutlineColor | _labelOutlineWidth
| _font | _labelStyle | _labelText | _backgroundColor | _backgroundPadding
| _backgroundEnabled | _scaleByDistance | _translucencyByDistance
| _distanceDisplayCondition | _heightOffset | _anchorLineEnabled
| _anchorLineColor | _image | _disableDepthTestDistance | _origin
| _labelOrigin | _meta.

Global Instance property_eq_dec : EqDecision property.
Proof. solve_decision. Defined.

(** The public name of a property: the key read from the style document and
    the name of the accessor pair on the prototype. *)
Definition property_name (p : property) : string :=
  match p with
  | _show => "show" | _color => "color" | _pointColor => "pointColor"
  | _pointSize => "pointSize" | _pointOutlineColor => "pointOutlineColor"
  | _pointOutlineWidth => "pointOutlineWidth" | _labelColor => "labelColor"
  | _labelOutlineColor => "labelOutlineColor"
  | _labelOutlineWidth => "labelOutlineWidth" | _font => "font"
  | _labelStyle => "labelStyle" | _labelText => "labelText"
  | _backgroundColor => "backgroundColor"
  | _backgroundPadding => "backgroundPadding"
  | _backgroundEnabled => "backgroundEnabled"
  | _scaleByDistance => "scaleByDistance"
  | _translucencyByDistance => "translucencyByDistance"
  | _distanceDisplayCondition => "distanceDisplayCondition"
  | _heightOffset => "heightOffset" | _anchorLineEnabled => "anchorLineEnabled"
  | _anchorLineColor => "anchorLineColor" | _image => "image"
  | _disableDepthTestDistance => "disableDepthTestDistance"
  | _origin => "origin" | _labelOrigin => "labelOrigin" | _meta => "meta"
  end.

(** The three properties that have a memoized shader function. *)
Inductive shaderKind := SColor | SShow | SPointSize.

Global Instance shaderKind_eq_dec : EqDecision shaderKind.
Proof. solve_decision. Defined.

Definition shaderProperty (q : shaderKind) : property :=
  match q with SColor => _color | SShow => _show | SPointSize => _pointSize end.

(** The return type each accessor passes to [getShaderFunction]. *)
Definition returnType (q : shaderKind) : string :=
  match q with SColor => "vec4" | SShow => "bool" | SPointSize => "float" end.

(** The state of the promise stored in [_readyPromise]. *)
Inductive promise :=
| Pending
| Fulfilled
| Rejected (reason : exn).

Definition notLoaded : string :=
  "The style is not loaded.  Use Cesium3DTileStyle.readyPromise or wait for Cesium3DTileStyle.ready to be true.".

Section Model.

(** JavaScript numbers are kept abstract; the only operation the style
    object applies to them is [String(value)]. *)
Context {number : Type}.

(** ** Values and the object store *)

(** [VObject l] is a reference into the store: a style document, one of its
    sub-objects, or a custom evaluator.  [VExpression e d] and
    [VConditionsExpression c d] stand for the instances built by
    [new Expression(e, d)] and [new ConditionsExpression(c, d)]. *)
Inductive jsval :=
| VUndefined
| VNull
| VBool (b : bool)
| VNumber (n : number)
| VString (s : string)
| VObject (l : loc)
| VExpression (expression defines : jsval)
| VConditionsExpression (conditionsExpression defines : jsval).

(** An object is the list of its own enumerable properties in enumeration
    order. *)
Local Abbreviation object := (list (string * jsval)).
Local Abbreviation store := (list object).

Fixpoint own (k : string) (o : object) : option jsval :=
  match o with
  | [] => None
  | (k', v) :: o' => if String.eqb k k' then Some v else own k o'
  end.

(** [o[k] = v] *)
Fixpoint put (k : string) (v : jsval) (o : object) : object :=
  match o with
  | [] => [(k, v)]
  | (k', v') :: o' =>
      if String.eqb k k' then (k, v) :: o' else (k', v') :: put k v o'
  end.

Definition typeof (v : jsval) : string :=
  match v with
  | VUndefined => "undefined"
  | VBool _ => "boolean"
  | VNumber _ => "number"
  | VString _ => "string"
  | VNull | VObject _ | VExpression _ _ | VConditionsExpression _ _ => "object"
  end.

(** Modelled from the spec: [Core/defined] is not part of the sources.
    Assigning [undefined] stores [undefined], so [undefined] is not
    defined; the library's [defined(value)] is
    [value !== undefined && value !== null]. *)
Definition defined (v : jsval) : bool :=
  match v with VUndefined | VNull => false | _ => true end.

(** The characters of a string primitive, as [for ... in] enumerates them. *)
Fixpoint string_entries (i : nat) (s : string) : object :=
  match s with
  | EmptyString => []
  | String c s' => (pretty i, VString (String c EmptyString)) :: string_entries (S i) s'
  end.

(** ** Collaborators *)

(** What the style object needs from the modules it imports.
    - [Number_toString n] is [String(n)];
    - [Expression_rejects h e d] is the exception [new Expression(e, d)]
      throws, if any, and likewise for [ConditionsExpression];
    - [Expression_entries v] lists the own enumerable properties of an
      instance of either class;
    - [getShaderFunction h e functionName attributePrefix shaderState
      returnType] is the method of the same name of the expression [e]
      (an [Expression], a [ConditionsExpression] or a custom object): what
      it returns or throws, and the properties it has stored in
      [shaderState] by then, in the order it stored them;
    - [stackDepth] bounds the depth of the recursion of [clone]. *)
Record Collaborators := {
  Number_toString : number → string;
  Expression_rejects : store → jsval → jsval → option exn;
  ConditionsExpression_rejects : store → jsval → jsval → option exn;
  Expression_entries : jsval → object;
  getShaderFunction :
    store → jsval → string → string → jsval → string → outcome jsval * object;
  stackDepth : nat
}.

Variable host : Collaborators.

(** Own enumerable properties of a value. *)
Definition entries (h : store) (v : jsval) : object :=
  match v with
  | VObject l => default [] (h !! l)
  | VString s => string_entries 0 s
  | VExpression _ _ | VConditionsExpression _ _ => Expression_entries host v
  | _ => []
  end.

(** [v.k] for the keys this module reads (property names, [defines],
    [conditions]); none of them is inherited from a prototype. *)
Definition member (h : store) (v : jsval) (k : string) : outcome jsval :=
  match v with
  | VUndefined | VNull => Throw (TypeError ("Cannot read property " +:+ k))
  | _ => Return (default VUndefined (own k (entries h v)))
  end.

(** [v.hasOwnProperty(k)]: the method is inherited from [Object.prototype]
    unless [v] has an own property of that name, which is data here and
    cannot be called. *)
Definition hasOwnProperty (h : store) (v : jsval) (k : string) : outcome bool :=
  match own "hasOwnProperty" (entries h v) with
  | Some _ => Throw (TypeError "hasOwnProperty is not a function")
  | None => Return (bool_decide (is_Some (own k (entries h v))))
  end.

(** ** The style object *)

(** One call of an expression's [getShaderFunction]. *)
Record shaderCall := {
  callee : jsval;
  functionName : string;
  attributePrefix : string;
  shaderState : jsval;
  callReturnType : string
}.

(** The store together with the fields of one [Cesium3DTileStyle] instance.
    [compiled] is the log of the calls made to [getShaderFunction] of
    expressions, most recent first. *)
Record world := {
  heap : store;
  _style : jsval;
  _ready : bool;
  field : property → jsval;
  _colorShaderFunction : jsval;
  _showShaderFunction : jsval;
  _pointSizeShaderFunction : jsval;
  _colorShaderFunctionReady : bool;
  _showShaderFunctionReady : bool;
  _pointSizeShaderFunctionReady : bool;
  _readyPromise : promise;
  compiled : list shaderCall
}.

(** Field updates, [this.f = x]. *)
Definition with_heap (x : store) (w : world) : world :=
  {| heap := x; _style := _style w; _ready := _ready w; field := field w;
     _colorShaderFunction := _colorShaderFunction w;
     _showShaderFunction := _showShaderFunction w;
     _pointSizeShaderFunction := _pointSizeShaderFunction w;
     _colorShaderFunctionReady := _colorShaderFunctionReady w;
     _showShaderFunctionReady := _showShaderFunctionReady w;
     _pointSizeShaderFunctionReady := _pointSizeShaderFunctionReady w;
     _readyPromise := _readyPromise w; compiled := compiled w |}.
Definition with_style (x : jsval) (w : world) : world :=
  {| heap := heap w; _style := x; _ready := _ready w; field := field w;
     _colorShaderFunction := _colorShaderFunction w;
     _showShaderFunction := _showShaderFunction w;
     _pointSizeShaderFunction := _pointSizeShaderFunction w;
     _colorShaderFunctionReady := _colorShaderFunctionReady w;
     _showShaderFunctionReady := _showShaderFunctionReady w;
     _pointSizeShaderFunctionReady := _pointSizeShaderFunctionReady w;
     _readyPromise := _readyPromise w; compiled := compiled w |}.
Definition with_ready (x : bool) (w : world) : world :=
  {| heap := heap w; _style := _style w; _ready := x; field := field w;
     _colorShaderFunction := _colorShaderFunction w;
     _showShaderFunction := _showShaderFunction w;
     _pointSizeShaderFunction := _pointSizeShaderFunction w;
     _colorShaderFunctionReady := _colorShaderFunctionReady w;
     _showShaderFunctionReady := _showShaderFunctionReady w;
     _pointSizeShaderFunctionReady := _pointSizeShaderFunctionReady w;
     _readyPromise := _readyPromise w; compiled := compiled w |}.
Definition with_field (x : property → jsval) (w : world) : world :=
  {| heap := heap w; _style := _style w; _ready := _ready w; field := x;
     _colorShaderFunction := _colorShaderFunction w;
     _showShaderFunction := _showShaderFunction w;
     _pointSizeShaderFunction := _pointSizeShaderFunction w;
     _colorShaderFunctionReady := _colorShaderFunctionReady w;
     _showShaderFunctionReady := _showShaderFunctionReady w;
     _pointSizeShaderFunctionReady := _pointSizeShaderFunctionReady w;
     _readyPromise := _readyPromise w; compiled := compiled w |}.
Definition with_colorShaderFunction (x : jsval) (w : world) : world :=
  {| heap := heap w; _style := _style w; _ready := _ready w;
     field := field w; _colorShaderFunction := x;
     _showShaderFunction := _showShaderFunction w;
     _pointSizeShaderFunction := _pointSizeShaderFunction w;
     _colorShaderFunctionReady := _colorShaderFunctionReady w;
     _showShaderFunctionReady := _showShaderFunctionReady w;
     _pointSizeShaderFunctionReady := _pointSizeShaderFunctionReady w;
     _readyPromise := _readyPromise w; compiled := compiled w |}.
Definition with_showShaderFunction (x : jsval) (w : world) : world :=
  {| heap := heap w; _style := _style w; _ready := _ready w;
     field := field w; _colorShaderFunction := _colorShaderFunction w;
     _showShaderFunction := x;
     _pointSizeShaderFunction := _pointSizeShaderFunction w;
     _colorShaderFunctionReady := _colorShaderFunctionReady w;
     _showShaderFunctionReady := _showShaderFunctionReady w;
     _pointSizeShaderFunctionReady := _pointSizeShaderFunctionReady w;
     _readyPromise := _readyPromise w; compiled := compiled w |}.
Definition with_pointSizeShaderFunction (x : jsval) (w : world) : world :=
  {| heap := heap w; _style := _style w; _ready := _ready w;
     field := field w; _colorShaderFunction := _colorShaderFunction w;
     _showShaderFunction := _showShaderFunction w;
     _pointSizeShaderFunction := x;
     _colorShaderFunctionReady := _colorShaderFunctionReady w;
     _showShaderFunctionReady := _showShaderFunctionReady w;
     _pointSizeShaderFunctionReady := _pointSizeShaderFunctionReady w;
     _readyPromise := _readyPromise w; compiled := compiled w |}.
Definition with_colorShaderFunctionReady (x : bool) (w : world) : world :=
  {| heap := heap w; _style := _style w; _ready := _ready w;
     field := field w; _colorShaderFunction := _colorShaderFunction w;
     _showShaderFunction := _showShaderFunction w;
     _pointSizeShaderFunction := _pointSizeShaderFunction w;
     _colorShaderFunctionReady := x;
     _showShaderFunctionReady := _showShaderFunctionReady w;
     _pointSizeShaderFunctionReady := _pointSizeShaderFunctionReady w;
     _readyPromise := _readyPromise w; compiled := compiled w |}.
Definition with_showShaderFunctionReady (x : bool) (w : world) : world :=
  {| heap := heap w; _style := _style w; _ready := _ready w;
     field := field w; _colorShaderFunction := _colorShaderFunction w;
     _showShaderFunction := _showShaderFunction w;
     _pointSizeShaderFunction := _pointSizeShaderFunction w;
     _colorShaderFunctionReady := _colorShaderFunctionReady w;
     _showShaderFunctionReady := x;
     _pointSizeShaderFunctionReady := _pointSizeShaderFunctionReady w;
     _readyPromise := _readyPromise w; compiled := compiled w |}.
Definition with_pointSizeShaderFunctionReady (x : bool) (w : world) : world :=
  {| heap := heap w; _style := _style w; _ready := _ready w;
     field := field w; _colorShaderFunction := _colorShaderFunction w;
     _showShaderFunction := _showShaderFunction w;
     _pointSizeShaderFunction := _pointSizeShaderFunction w;
     _colorShaderFunctionReady := _colorShaderFunctionReady w;
     _showShaderFunctionReady := _showShaderFunctionReady w;
     _pointSizeShaderFunctionReady := x; _readyPromise := _readyPromise w;
     compiled := compiled w |}.
Definition with_readyPromise (x : promise) (w : world) : world :=
  {| heap := heap w; _style := _style w; _ready := _ready w;
     field := field w; _colorShaderFunction := _colorShaderFunction w;
     _showShaderFunction := _showShaderFunction w;
     _pointSizeShaderFunction := _pointSizeShaderFunction w;
     _colorShaderFunctionReady := _colorShaderFunctionReady w;
     _showShaderFunctionReady := _showShaderFunctionReady w;
     _pointSizeShaderFunctionReady := _pointSizeShaderFunctionReady w;
     _readyPromise := x; compiled := compiled w |}.
Definition with_compiled (x : list shaderCall) (w : world) : world :=
  {| heap := heap w; _style := _style w; _ready := _ready w;
     field := field w; _colorShaderFunction := _colorShaderFunction w;
     _showShaderFunction := _showShaderFunction w;
     _pointSizeShaderFunction := _pointSizeShaderFunction w;
     _colorShaderFunctionReady := _colorShaderFunctionReady w;
     _showShaderFunctionReady := _showShaderFunctionReady w;
     _pointSizeShaderFunctionReady := _pointSizeShaderFunctionReady w;
     _readyPromise := _readyPromise w; compiled := x |}.

(** ** Computations over the world

    A computation returns or throws; either way the changes it made to the
    world before that point stay. *)
Definition M (A : Type) : Type := world → outcome A * world.

Definition ret {A} (a : A) : M A := λ w, (Return a, w).
Definition throw {A} (e : exn) : M A := λ w, (Throw e, w).
Definition bind {A B} (m : M A) (k : A → M B) : M B :=
  λ w, match m w with
       | (Return a, w') => k a w'
       | (Throw e, w') => (Throw e, w')
       end.
Definition update (f : world → world) : M unit := λ w, (Return tt, f w).
Definition read {A} (f : world → A) : M A := λ w, (Return (f w), w).
Definition lift {A} (f : store → outcome A) : M A := λ w, (f (heap w), w).

Notation "x <- m ;; k" := (bind m (λ x, k))
  (at level 100, m at next level, right associativity, only parsing).
Notation "m ;;; k" := (bind m (λ _, k))
  (at level 100, right associativity, only parsing).

(** [{}] and [new Object(...)]: a new object at the next free location. *)
Definition allocate (o : object) : M jsval :=
  λ w, (Return (VObject (length (heap w))), with_heap ((heap w ++ [o])%list) w).

(** The own property [k] of the object at [l] is defined or overwritten
    with [v]. *)
Definition defineProperty (l : loc) (k : string) (v : jsval) : M unit :=
  update (λ w, with_heap (alter (put k v) l (heap w)) w).

(** [target[k] = v] on an object of the store, whose prototype is
    [Object.prototype].  The name [__proto__] is an accessor of that
    prototype: assigning an object to it sets the prototype of [target],
    assigning a primitive does nothing, and no own property is defined
    either way.  The store holds own properties only, so that assignment
    leaves it as it is; what [target] inherits from then on is not part of
    the model. *)
Definition assign (target : jsval) (k : string) (v : jsval) : M unit :=
  match target with
  | VObject l =>
      if String.eqb k "__proto__" then ret tt else defineProperty l k v
  | VUndefined | VNull => throw (TypeError ("Cannot set property " +:+ k))
  | _ => ret tt
  end.

(** Modelled from the spec: [Core/defaultValue] is not part of the sources.
    [defaultValue(v, defaultValue.EMPTY_OBJECT).k] reads [k] from [v] when
    [v] is defined and from the frozen empty object, which has no property
    at all, otherwise. *)
Definition memberOrEmpty (h : store) (v : jsval) (k : string) : jsval :=
  if defined v then default VUndefined (own k (entries h v)) else VUndefined.

(** [String(value)] on the booleans and numbers [getExpression] passes. *)
Definition String_of (v : jsval) : string :=
  match v with
  | VBool true => "true"
  | VBool false => "false"
  | VNumber n => Number_toString host n
  | _ => ""
  end.

(** [new Expression(expression, defines)] *)
Definition new_Expression (expression defines : jsval) : M jsval :=
  λ w, match Expression_rejects host (heap w) expression defines with
       | Some e => (Throw e, w)
       | None => (Return (VExpression expression defines), w)
       end.

(** [new ConditionsExpression(conditionsExpression, defines)] *)
Definition new_ConditionsExpression (conditionsExpression defines : jsval) : M jsval :=
  λ w, match ConditionsExpression_rejects host (heap w) conditionsExpression defines with
       | Some e => (Throw e, w)
       | None => (Return (VConditionsExpression conditionsExpression defines), w)
       end.

(** The store after the properties [writes] have been stored, one after
    the other, in the object [target] refers to. *)
Definition writeAll (target : jsval) (writes : object) (h : store) : store :=
  match target with
  | VObject l => alter (λ o, foldl (λ o kv, put kv.1 kv.2 o) o writes) l h
  | _ => h
  end.

Definition written (target : jsval) (writes : object) (w : world) : world :=
  with_heap (writeAll target writes (heap w)) w.

(** [e.getShaderFunction(functionName, attributePrefix, shaderState, rt)]:
    the call stores into the caller's [shaderState], whether it returns or
    throws; every call is recorded in [compiled]. *)
Definition call_getShaderFunction (e : jsval) (fn ap : string) (ss : jsval) (rt : string) : M jsval :=
  λ w, let r := getShaderFunction host (heap w) e fn ap ss rt in
       (r.1,
        written ss r.2
          (with_compiled
             ({| callee := e; functionName := fn; attributePrefix := ap;
                 shaderState := ss; callReturnType := rt |} :: compiled w) w)).

(** ** [getExpression] *)

Definition getExpression (value : jsval) : M jsval :=
  defines <- read (λ w, memberOrEmpty (heap w) (_style w) "defines");;
  if negb (defined value) then
    ret VUndefined
  else if String.eqb (typeof value) "boolean" || String.eqb (typeof value) "number" then
    new_Expression (VString (String_of value)) VUndefined
  else if String.eqb (typeof value) "string" then
    new_Expression value defines
  else
    conditions <- lift (λ h, member h value "conditions");;
    if defined conditions then
      new_ConditionsExpression value defines
    else
      ret value.

(** ** Property accessors *)

(** [get] of a stylable property. *)
Definition getter (p : property) : M jsval :=
  ready <- read _ready;;
  if negb ready then throw (DeveloperError notLoaded)
  else read (λ w, field w p).

Definition with_property (p : property) (x : jsval) (w : world) : world :=
  with_field (λ p', if decide (p' = p) then x else field w p') w.

(** [set] of a stylable property.  [show], [color] and [pointSize] also
    clear the flag of their shader function; [meta] stores the value as it
    is. *)
Definition setter (p : property) (value : jsval) : M unit :=
  match p with
  | _show =>
      e <- getExpression value;;
      update (with_property _show e);;;
      update (with_showShaderFunctionReady false)
  | _color =>
      e <- getExpression value;;
      update (with_property _color e);;;
      update (with_colorShaderFunctionReady false)
  | _pointSize =>
      e <- getExpression value;;
      update (with_property _pointSize e);;;
      update (with_pointSizeShaderFunctionReady false)
  | _meta =>
      update (with_property _meta value)
  | _ =>
      e <- getExpression value;;
      update (with_property p e)
  end.

(** [style], [ready] and [readyPromise] are read-only. *)
Definition get_style : M jsval :=
  ready <- read _ready;;
  if negb ready then throw (DeveloperError notLoaded)
  else read _style.

Definition get_ready : M bool := read _ready.

Definition get_readyPromise : M promise := read _readyPromise.

(** ** Shader functions *)

Definition getColorShaderFunction (functionName attributePrefix : string) (shaderState : jsval) : M jsval :=
  cached <- read _colorShaderFunctionReady;;
  if cached then
    read _colorShaderFunction
  else
    update (with_colorShaderFunctionReady true);;;
    color <- getter _color;;
    f <- (if defined color then
            color <- getter _color;;
            call_getShaderFunction color functionName attributePrefix shaderState "vec4"
          else ret VUndefined);;
    update (with_colorShaderFunction f);;;
    read _colorShaderFunction.

Definition getShowShaderFunction (functionName attributePrefix : string) (shaderState : jsval) : M jsval :=
  cached <- read _showShaderFunctionReady;;
  if cached then
    read _showShaderFunction
  else
    update (with_showShaderFunctionReady true);;;
    show <- getter _show;;
    f <- (if defined show then
            show <- getter _show;;
            call_getShaderFunction show functionName attributePrefix shaderState "bool"
          else ret VUndefined);;
    update (with_showShaderFunction f);;;
    read _showShaderFunction.

Definition getPointSizeShaderFunction (functionName attributePrefix : string) (shaderState : jsval) : M jsval :=
  cached <- read _pointSizeShaderFunctionReady;;
  if cached then
    read _pointSizeShaderFunction
  else
    update (with_pointSizeShaderFunctionReady true);;;
    pointSize <- getter _pointSize;;
    f <- (if defined pointSize then
            pointSize <- getter _pointSize;;
            call_getShaderFunction pointSize functionName attributePrefix shaderState "float"
          else ret VUndefined);;
    update (with_pointSizeShaderFunction f);;;
    read _pointSizeShaderFunction.

(** ** Loading the style document *)

Fixpoint clone_entries (rec : jsval → store → outcome jsval * store)
    (o : object) (h : store) : outcome object * store :=
  match o with
  | [] => (Return [], h)
  | (k, v) :: o' =>
      match rec v h with
      | (Return v', h1) =>
          match clone_entries rec o' h1 with
          | (Return r, h2) => (Return ((k, v') :: r), h2)
          | (Throw e, h2) => (Throw e, h2)
          end
      | (Throw e, h1) => (Throw e, h1)
      end
  end.

(** Modelled from the spec: [Core/clone] is not part of the sources.  The
    raw style is "held verbatim (deep-cloned)": [clone(object, true)]
    returns primitives as they are and copies an object into a new one, its
    property values cloned in turn.  Expression instances are immutable and
    stand for themselves.  [depth] is the call depth left; exhausting it is
    the engine's stack overflow. *)
Fixpoint clone (depth : nat) (v : jsval) (h : store) : outcome jsval * store :=
  match v with
  | VObject l =>
      match depth with
      | 0 => (Throw (RangeError "Maximum call stack size exceeded"), h)
      | S d =>
          match clone_entries (clone d) (entries h v) h with
          | (Return o, h') => (Return (VObject (length h')), (h' ++ [o])%list)
          | (Throw e, h') => (Throw e, h')
          end
      end
  | _ => (Return v, h)
  end.

Definition deepClone (v : jsval) : M jsval :=
  λ w, let '(r, h) := clone (stackDepth host) v (heap w) in (r, with_heap h w).

(** The assignments [that.show = styleJson.show] ... of [setup], in the
    order they are written. *)
Definition setupOrder : list property :=
  [ _show; _color; _pointSize; _pointColor; _pointOutlineColor;
    _pointOutlineWidth; _labelColor; _labelOutlineColor; _labelOutlineWidth;
    _labelStyle; _font; _labelText; _backgroundColor; _backgroundPadding;
    _backgroundEnabled; _scaleByDistance; _translucencyByDistance;
    _distanceDisplayCondition; _heightOffset; _anchorLineEnabled;
    _anchorLineColor; _image; _disableDepthTestDistance; _origin;
    _labelOrigin ].

Fixpoint assignAll (styleJson : jsval) (ps : list property) : M unit :=
  match ps with
  | [] => ret tt
  | p :: ps' =>
      value <- read (λ w, memberOrEmpty (heap w) styleJson (property_name p));;
      setter p value;;;
      assignAll styleJson ps'
  end.

(** The body of [for (var property in metaJson)]. *)
Fixpoint wrapMeta (metaJson defines meta : jsval) (keys : list string) : M unit :=
  match keys with
  | [] => ret tt
  | property :: keys' =>
      isOwn <- lift (λ h, hasOwnProperty h metaJson property);;
      (if isOwn : bool then
         value <- read (λ w, memberOrEmpty (heap w) metaJson property);;
         e <- new_Expression value defines;;
         assign meta property e
       else ret tt);;;
      wrapMeta metaJson defines meta keys'
  end.

Definition setup (styleJson : jsval) : M unit :=
  style <- deepClone styleJson;;
  update (with_style style);;;
  assignAll styleJson setupOrder;;;
  meta <- allocate [];;
  metaJson <- read (λ w, memberOrEmpty (heap w) styleJson "meta");;
  (if defined metaJson then
     defines <- read (λ w, memberOrEmpty (heap w) styleJson "defines");;
     keys <- read (λ w, (entries (heap w) metaJson).*1);;
     wrapMeta metaJson defines meta keys
   else ret tt);;;
  update (with_property _meta meta);;;
  update (with_ready true).

(** The fields as the constructor initialises them. *)
Definition initial (h : store) : world :=
  {| heap := h; _style := VUndefined; _ready := false;
     field := λ _, VUndefined;
     _colorShaderFunction := VUndefined; _showShaderFunction := VUndefined;
     _pointSizeShaderFunction := VUndefined;
     _colorShaderFunctionReady := false; _showShaderFunctionReady := false;
     _pointSizeShaderFunctionReady := false;
     _readyPromise := Pending; compiled := [] |}.

(** Modelled from the spec: [ThirdParty/when] is not part of the sources.
    The load is "a one-shot future that resolves or rejects exactly once";
    [promise.then(callback)] runs the callback with the resolved document
    and yields a promise fulfilled with what the callback returns, or
    rejected with what it throws. *)
Definition thenSetup (styleJson : jsval) (w : world) : world :=
  match setup styleJson w with
  | (Return _, w') => with_readyPromise Fulfilled w'
  | (Throw e, w') => with_readyPromise (Rejected e) w'
  end.

(** [new Cesium3DTileStyle(style)] in the store [h].  A string is a url:
    [loadJson(style)] is pending when the constructor returns.  Anything
    else is wrapped by [when.resolve], whose callback runs at once. *)
Definition Cesium3DTileStyle (style : jsval) (h : store) : world :=
  if String.eqb (typeof style) "string" then
    with_readyPromise Pending (initial h)
  else
    thenSetup style (initial h).

(** ** What can happen to a style object *)

(** The calls a program makes on the style object, the two ways the load of
    a url style ends, and what the program does to the store on its own: it
    makes an object ([NewObject]), or defines or overwrites an own property
    of one ([Mutate]). *)
Inductive op :=
| GetProperty (p : property)
| SetProperty (p : property) (value : jsval)
| GetStyle
| GetReady
| GetReadyPromise
| ShaderFunction (q : shaderKind) (functionName attributePrefix : string) (shaderState : jsval)
| LoadResolved (styleJson : jsval)
| LoadRejected (reason : exn)
| NewObject (o : object)
| Mutate (l : loc) (k : string) (v : jsval).

Definition shaderFunction (q : shaderKind) : string → string → jsval → M jsval :=
  match q with
  | SColor => getColorShaderFunction
  | SShow => getShowShaderFunction
  | SPointSize => getPointSizeShaderFunction
  end.

(** The world after an operation, whether it returned or threw.  The two
    load events settle the pending promise of [loadJson]; a settled promise
    ignores them. *)
Definition run (o : op) (w : world) : world :=
  match o with
  | GetProperty p => (getter p w).2
  | SetProperty p value => (setter p value w).2
  | GetStyle => (get_style w).2
  | GetReady => (get_ready w).2
  | GetReadyPromise => (get_readyPromise w).2
  | ShaderFunction q fn ap ss => (shaderFunction q fn ap ss w).2
  | LoadResolved styleJson =>
      match _readyPromise w with
      | Pending => thenSetup styleJson w
      | _ => w
      end
  | LoadRejected reason =>
      match _readyPromise w with
      | Pending => with_readyPromise (Rejected reason) w
      | _ => w
      end
  | NewObject o => (allocate o w).2
  | Mutate l k v => (defineProperty l k v w).2
  end.

Definition runAll (os : list op) (w : world) : world := foldl (λ w o, run o w) w os.

(** The flag and the cached value of a shader function. *)
Definition shaderReady (q : shaderKind) (w : world) : bool :=
  match q with
  | SColor => _colorShaderFunctionReady w
  | SShow => _showShaderFunctionReady w
  | SPointSize => _pointSizeShaderFunctionReady w
  end.

Definition shaderCache (q : shaderKind) (w : world) : jsval :=
  match q with
  | SColor => _colorShaderFunction w
  | SShow => _showShaderFunction w
  | SPointSize => _pointSizeShaderFunction w
  end.

Definition with_shaderReady (q : shaderKind) (b : bool) (w : world) : world :=
  match q with
  | SColor => with_colorShaderFunctionReady b w
  | SShow => with_showShaderFunctionReady b w
  | SPointSize => with_pointSizeShaderFunctionReady b w
  end.

Definition with_shaderCache (q : shaderKind) (f : jsval) (w : world) : world :=
  match q with
  | SColor => with_colorShaderFunction f w
  | SShow => with_showShaderFunction f w
  | SPointSize => with_pointSizeShaderFunction f w
  end.

(** The flag a property's setter clears, if it has one. *)
Definition invalidate (p : property) (w : world) : world :=
  match p with
  | _show => with_showShaderFunctionReady false w
  | _color => with_colorShaderFunctionReady false w
  | _pointSize => with_pointSizeShaderFunctionReady false w
  | _ => w
  end.

Definition logCall (e : jsval) (fn ap : string) (ss : jsval) (rt : string) (w : world) : world :=
  with_compiled
    ({| callee := e; functionName := fn; attributePrefix := ap;
        shaderState := ss; callReturnType := rt |} :: compiled w) w.

(** The three accessors are one memoization scheme over the flag, the
    cache and the property of their kind ([shaderFunction_memoized] below). *)
Definition memoized (q : shaderKind) (fn ap : string) (ss : jsval) (w : world) : outcome jsval * world :=
  if shaderReady q w then (Return (shaderCache q w), w)
  else
    let w1 := with_shaderReady q true w in
    if negb (_ready w) then (Throw (DeveloperError notLoaded), w1)
    else
      let e := field w (shaderProperty q) in
      if defined e then
        match getShaderFunction host (heap w) e fn ap ss (returnType q) with
        | (Return f, writes) =>
            (Return f,
             with_shaderCache q f (written ss writes (logCall e fn ap ss (returnType q) w1)))
        | (Throw x, writes) =>
            (Throw x, written ss writes (logCall e fn ap ss (returnType q) w1))
        end
      else (Return VUndefined, with_shaderCache q VUndefined w1).

(** The value a reference stands for: the tree of properties read off the
    store, no deeper than [depth].  Two values are structurally equal when
    they reify to the same tree. *)
#[warnings="-register-all"]
Inductive tree :=
| Leaf (v : jsval)
| Node (children : list (string * tree)).

Fixpoint reify_entries (rec : jsval → option tree) (o : object) : option (list (string * tree)) :=
  match o with
  | [] => Some []
  | (k, v) :: o' =>
      match rec v, reify_entries rec o' with
      | Some t, Some ts => Some ((k, t) :: ts)
      | _, _ => None
      end
  end.

Fixpoint reify (depth : nat) (h : store) (v : jsval) : option tree :=
  match v with
  | VObject l =>
      match depth with
      | 0 => None
      | S d =>
          match h !! l with
          | Some o => Node <$> reify_entries (reify d h) o
          | None => None
          end
      end
  | _ => Some (Leaf v)
  end.



(** What the caller does when the objects from [n] up to [m] are not its
    own: it writes to the objects it had before them and to those it made
    after them only, be it with its own hands or by passing one as the
    [shaderState] of a shader function. *)
Definition callerOp (n m : nat) (o : op) : Prop :=
  match o with
  | Mutate l _ _ | ShaderFunction _ _ _ (VObject l) => (l < n ∨ m ≤ l)%nat
  | _ => True
  end.

(** Operations that assign the property of [q]: a call of its setter,
    and the completion of the load, whose [setup] assigns every property. *)
Definition assigns (q : shaderKind) (o : op) : bool :=
  match o with
  | SetProperty p _ => bool_decide (p = shaderProperty q)
  | _ => false
  end.

Definition isLoadResolved (o : op) : bool :=
  match o with LoadResolved _ => true | _ => false end.

Definition sets (q : shaderKind) (o : op) : bool :=
  assigns q o || isLoadResolved o.

(** What holds of every world that can arise ([reachable_consistent]):
    a ready style has a fulfilled promise, a style that is not ready has
    never cached a shader function, and a set flag over an unset property
    comes with the cached value [undefined]. *)
Definition consistent (w : world) : Prop :=
  (_ready w = true → _readyPromise w = Fulfilled) ∧
  (_ready w = false → ∀ q, shaderCache q w = VUndefined) ∧
  (∀ q, shaderReady q w = true →
        defined (field w (shaderProperty q)) = false →
        shaderCache q w = VUndefined).

Inductive reachable : world → Prop :=
| reachable_new style h : reachable (Cesium3DTileStyle style h)
| reachable_run o w : reachable w → reachable (run o w).

(** The calls to [getShaderFunction] made on behalf of one accessor. *)
Definition compiledFor (q : shaderKind) (w : world) : list shaderCall :=
  filter (λ c, callReturnType c = returnType q) (compiled w).

(** ** Vocabulary of the properties *)

(** [hoare P m Q E]: from a world in [P], [m] returns in [Q] or throws in [E]. *)
Definition hoare {A} (P : world → Prop) (m : M A)
    (Q : A → world → Prop) (E : world → Prop) : Prop :=
  ∀ w, P w →
    match m w with
    | (Return a, w') => Q a w'
    | (Throw _, w') => E w'
    end.

(** [m] keeps [P], however it ends. *)
Definition preserves {A} (P : world → Prop) (m : M A) : Prop :=
  hoare P m (λ _, P) P.

(** What [new Expression] and [new ConditionsExpression] complete with. *)
Definition constructed (rejects : option exn) (x : jsval) : outcome jsval :=
  match rejects with Some e => Throw e | None => Return x end.

(** The world after the setter of [p] has stored [e]. *)
Definition assigned (p : property) (e : jsval) (w : world) : world :=
  invalidate p (with_property p e w).

(** Predicates on the world that [setup] cannot disturb before its last
    statement: it only grows or writes the store, sets [_style] and assigns
    properties through their setters. *)
Record stable (P : world → Prop) : Prop := {
  stable_heap : ∀ h w, P w → P (with_heap h w);
  stable_style : ∀ s w, P w → P (with_style s w);
  stable_assign : ∀ p e w, P w → P (invalidate p (with_property p e w))
}.

(** Predicates that no call on the style object disturbs: beyond what
    [setup] does, the accessors set a flag, fill a cache and log a call,
    and the expression they call writes to the store. *)
Record api_stable (P : world → Prop) : Prop := {
  api_setup :> stable P;
  api_flag : ∀ q b w, P w → P (with_shaderReady q b w);
  api_cache : ∀ q f w, P w → P (with_shaderCache q f w);
  api_log : ∀ e fn ap ss rt w, P w → P (logCall e fn ap ss rt w)
}.

Definition isLoad (o : op) : bool :=
  match o with LoadResolved _ | LoadRejected _ => true | _ => false end.

(** What other operations leave of a memoized shader function. *)
Definition keeps (q : shaderKind) (w w' : world) : Prop :=
  shaderReady q w' = true ∧ shaderCache q w' = shaderCache q w ∧
  compiledFor q w' = compiledFor q w.

(** [kept n h2 h]: the objects [h2] sit in the store [h] right after its
    first [n] objects. *)
Definition kept (n : nat) (h2 h : store) : Prop :=
  ∃ hx h3, h = (hx ++ h2 ++ h3)%list ∧ length hx = n.

(** The raw style [v'] is in [_style] and its objects are in place. *)
Definition footprint (n : nat) (h2 : store) (v' : jsval) (w : world) : Prop :=
  _style w = v' ∧ kept n h2 (heap w).

(** What the [style] getter of [w] returns, now and after any further
    operations, the caller's writes to the objects it had before the style
    was set up (the first [n]) and to those it makes afterwards included:
    one value, standing for the tree [t]. *)
Definition rawStyleIs (t : tree) (n : nat) (w : world) : Prop :=
  ∃ v', ∀ os, Forall (callerOp n (length (heap w))) os →
    let w' := runAll os w in
    get_style w' = (Return v', w') ∧
    reify (stackDepth host) (heap w') v' = Some t.

(** The promise and the fields it goes with: a fulfilled promise belongs
    to a ready style, and while the load is pending nothing has been
    stored in [_style]. *)
Definition promiseAgrees (w : world) : Prop :=
  (_readyPromise w = Fulfilled → _ready w = true) ∧
  (_readyPromise w = Pending → _style w = VUndefined).

(** The store [h] is [h0] with further objects after it. *)
Definition extends (h0 h : store) : Prop := ∃ h', h = (h0 ++ h')%list.

(** Operations that hand the object at [l] over to be written: the
    caller's own write to it, and a shader-function call with it as
    [shaderState]. *)
Definition touches (l : loc) (o : op) : bool :=
  match o with
  | Mutate l' _ _ | ShaderFunction _ _ _ (VObject l') => bool_decide (l' = l)
  | _ => false
  end.

(** The statements of [setup] that follow the assignments: the [meta]
    object and the flag ([setup_phases] below). *)
Definition finishSetup (styleJson : jsval) : M unit :=
  meta <- allocate [];;
  metaJson <- read (λ w, memberOrEmpty (heap w) styleJson "meta");;
  (if defined metaJson then
     defines <- read (λ w, memberOrEmpty (heap w) styleJson "defines");;
     keys <- read (λ w, (entries (heap w) metaJson).*1);;
     wrapMeta metaJson defines meta keys
   else ret tt);;;
  update (with_property _meta meta);;;
  update (with_ready true).

(** Two worlds with the same store and raw style that agree on the
    properties in [S]. *)
Definition alike (S : property → Prop) (w w2 : world) : Prop :=
  heap w = heap w2 ∧ _style w = _style w2 ∧ ∀ p, S p → field w p = field w2 p.

(** [rhoare R m Q E]: from two worlds related by [R], [m] ends the same way
    in both, returning the same value in worlds related by [Q] or throwing
    the same error in worlds related by [E]. *)
Definition rhoare {A} (R : world → world → Prop) (m : M A)
    (Q : A → world → world → Prop) (E : world → world → Prop) : Prop :=
  ∀ w w2, R w w2 →
    match m w, m w2 with
    | (Return a, w'), (Return a2, w2') => a = a2 ∧ Q a w' w2'
    | (Throw x, w'), (Throw x2, w2') => x = x2 ∧ E w' w2'
    | _, _ => False
    end.

(** The calls a program can make on the style object itself. *)
Definition isCall (o : op) : bool :=
  match o with
  | GetProperty _ | SetProperty _ _ | GetStyle | GetReady | GetReadyPromise
  | ShaderFunction _ _ _ _ => true
  | _ => false
  end.

(** A style whose load is pending in the store [h]: nothing stored,
    nothing cached, nothing compiled. *)
Definition pendingIn (h : store) (w : world) : Prop :=
  heap w = h ∧ _style w = VUndefined ∧ _ready w = false ∧
  _readyPromise w = Pending ∧ (∀ q, shaderCache q w = VUndefined) ∧
  compiled w = [].

End Model.

Arguments jsval : clear implicits.

Abbreviation object number := (list (string * jsval number)).
Abbreviation store number := (list (object number)).

Arguments shaderCall : clear implicits.
Arguments Collaborators : clear implicits.
Arguments world : clear implicits.
Arguments op : clear implicits.
Arguments tree : clear implicits.

(** ** A concrete host

    Integers for numbers, an [Expression] constructor that insists on a
    string with balanced parentheses, and a [getShaderFunction] that
    compiles [Expression] instances only and marks the [shaderState] of a
    color function as translucent. *)
Module Demo.

Fixpoint balanced (depth : nat) (s : string) : bool :=
  match s with
  | EmptyString => Nat.eqb depth 0
  | String c s' =>
      if String.eqb (String c EmptyString) "(" then balanced (S depth) s'
      else if String.eqb (String c EmptyString) ")" then
        match depth with 0 => false | S d => balanced d s' end
      else balanced depth s'
  end.

Definition rejects (h : store Z) (expression defines : jsval Z) : option exn :=
  match expression with
  | VString s => if balanced 0 s then None else Some (RuntimeError "Unclosed (")
  | _ => Some (DeveloperError "expression must be a string")
  end.

Definition compile (h : store Z) (e : jsval Z) (functionName attributePrefix : string)
    (shaderState : jsval Z) (returnType : string) : outcome (jsval Z) * object Z :=
  match e with
  | VExpression (VString s) _ =>
      (Return (VString (returnType +:+ " " +:+ functionName +:+ "() { return " +:+ s +:+ "; }")),
       if String.eqb returnType "vec4" then [("translucent", VBool true)] else [])
  | VConditionsExpression _ _ => (Return VUndefined, [])
  | _ => (Throw (TypeError "getShaderFunction is not a function"), [])
  end.

Definition host : Collaborators Z :=
  {| Number_toString := pretty;
     Expression_rejects := rejects;
     ConditionsExpression_rejects := λ _ _ _, None;
     Expression_entries := λ _, [];
     getShaderFunction := compile;
     stackDepth := 64 |}.

(** The caller's objects: a style document at 0, with a conditions object,
    a [meta] object and a [defines] object; a document whose [show] does
    not parse at 5; a document whose [meta] shadows [hasOwnProperty] at 6. *)
Definition objects : store Z :=
  [ [("show", VString "${Height} > 0"); ("color", VObject 1);
     ("meta", VObject 2); ("defines", VObject 3)];
    [("conditions", VObject 4)];
    [("description", VString "${name}")];
    [("tall", VString "${Height} > 100")];
    [];
    [("show", VString "(${Height} > 0")];
    [("meta", VObject 7)];
    [("hasOwnProperty", VString "true")] ].

Definition inlineStyle : world Z := Cesium3DTileStyle host (VObject 0) objects.
Definition urlStyle : world Z := Cesium3DTileStyle host (VString "style.json") objects.

(** Operations that do not assign [show]. *)
Definition otherOps : list (op Z) :=
  [ SetProperty _color (VString "color('red')"); GetProperty _show;
    ShaderFunction SColor "color" "a_" VUndefined; NewObject [];
    Mutate 0 "show" (VBool false) ].

(** The tree the document at 0 stands for. *)
Definition documentTree : tree Z :=
  Node [ ("show", Leaf (VString "${Height} > 0"));
         ("color", Node [("conditions", Node [])]);
         ("meta", Node [("description", Leaf (VString "${name}"))]);
         ("defines", Node [("tall", Leaf (VString "${Height} > 100"))]) ].

(** The inline style after its [show] function was requested and [show]
    then replaced by the custom object at 4, which has no
    [getShaderFunction]. *)
Definition customShow : world Z :=
  runAll host [ ShaderFunction SShow "show" "a_" VUndefined;
                SetProperty _show (VObject 4) ] inlineStyle.

(** Calls made on a style while its load is pending. *)
Definition earlyCalls : list (op Z) :=
  [ SetProperty _color (VString "color('red')"); SetProperty _meta (VBool true);
    ShaderFunction SColor "color" "a_" VUndefined; GetProperty _show ].

(** The load completes, [color] is assigned and its shader function
    requested with the object at 4 as [shaderState]; the caller then writes
    to the object at 1. *)
Definition handedOver : list (op Z) :=
  [ LoadResolved (VObject 0); SetProperty _color (VString "color('red')");
    ShaderFunction SColor "color" "a_" (VObject 4); Mutate 1 "conditions" VNull ].

(** A document as [JSON.parse] makes it of
    [{"meta": {"__proto__": "true", "a": "1"}}]. *)
Definition protoObjects : store Z :=
  [ [("meta", VObject 1)];
    [("__proto__", VString "true"); ("a", VString "1")] ].

End Demo.

(** * Properties *)

Section Properties.

Local Open Scope nat_scope.

Context {number : Type} (host : Collaborators number).
Implicit Types (w : world number) (v value e : jsval number) (h : store number).
Implicit Types (p : property) (q : shaderKind) (o : op number).
Implicit Types (P E : world number → Prop).

(** ** Reasoning about computations *)

Ltac unfold_updates :=
  cbv [with_heap with_style with_ready with_field with_colorShaderFunction
       with_showShaderFunction with_pointSizeShaderFunction
       with_colorShaderFunctionReady with_showShaderFunctionReady
       with_pointSizeShaderFunctionReady with_readyPromise with_compiled
       with_property with_shaderReady with_shaderCache invalidate logCall
       written] in *;
  cbn [heap _style _ready field _colorShaderFunction _showShaderFunction
       _pointSizeShaderFunction _colorShaderFunctionReady
       _showShaderFunctionReady _pointSizeShaderFunctionReady _readyPromise
       compiled] in *.

Lemma hoare_bind {A B} P (m : M A) (k : A → M B) Q R E :
  hoare P m Q E → (∀ a, hoare (Q a) (k a) R E) → hoare P (bind m k) R E.
Proof.
  intros Hm Hk w HP. unfold bind. specialize (Hm w HP).
  destruct (m w) as [[a|x] w']; [ apply (Hk a w' Hm) | exact Hm ].
Qed.

Lemma hoare_weaken {A} (P P' : world number → Prop) (m : M A) (Q Q' : A → world number → Prop) E E' :
  hoare P' m Q' E' → (∀ w, P w → P' w) → (∀ a w, Q' a w → Q a w) →
  (∀ w, E' w → E w) → hoare P m Q E.
Proof.
  intros H HP HQ HE w Hw. specialize (H w (HP w Hw)).
  destruct (m w) as [[a|x] w']; auto.
Qed.

Lemma hoare_ret {A} P (a : A) E : hoare P (ret a) (λ _, P) E.
Proof. intros w HP. exact HP. Qed.

Lemma hoare_throw {A} P x Q : hoare P (throw (A := A) x) Q P.
Proof. intros w HP. exact HP. Qed.

Lemma hoare_read {A} P (f : world number → A) E : hoare P (read f) (λ _, P) E.
Proof. intros w HP. exact HP. Qed.

Lemma hoare_lift {A} P (f : store number → outcome A) : hoare P (lift f) (λ _, P) P.
Proof. intros w HP. unfold lift. destruct (f (heap w)); exact HP. Qed.

Lemma hoare_update P f Q E :
  (∀ w, P w → Q tt (f w)) → hoare P (update f) Q E.
Proof. intros H w HP. apply H, HP. Qed.

Lemma preserves_bind {A B} P (m : M A) (k : A → M B) :
  preserves P m → (∀ a, preserves P (k a)) → preserves P (bind m k).
Proof. intros Hm Hk. exact (hoare_bind P m k _ _ _ Hm Hk). Qed.

Lemma preserves_snd {A} P (m : M A) w : preserves P m → P w → P (m w).2.
Proof. intros H HP. specialize (H w HP). destruct (m w) as [[a|x] w']; exact H. Qed.

Lemma unchanged_preserves {A} P (m : M A) : (∀ w, (m w).2 = w) → preserves P m.
Proof.
  intros H w HP. specialize (H w). destruct (m w) as [[a|x] w']; simpl in H; by subst.
Qed.

(** ** [getExpression] and the accessors, case by case *)

Lemma getExpression_unfold value w :
  getExpression host value w =
    (let defines := memberOrEmpty host (heap w) (_style w) "defines" in
     match value with
     | VUndefined | VNull => Return VUndefined
     | VBool _ | VNumber _ =>
         constructed
           (Expression_rejects host (heap w) (VString (String_of host value)) VUndefined)
           (VExpression (VString (String_of host value)) VUndefined)
     | VString _ =>
         constructed (Expression_rejects host (heap w) value defines)
           (VExpression value defines)
     | _ =>
         if defined (default VUndefined (own "conditions" (entries host (heap w) value)))
         then constructed (ConditionsExpression_rejects host (heap w) value defines)
                (VConditionsExpression value defines)
         else Return value
     end, w).
Proof.
  unfold getExpression, bind, read, ret, lift, new_Expression,
    new_ConditionsExpression, constructed.
  destruct value; simpl;
    repeat match goal with
           | |- context [match ?x with _ => _ end] => destruct x; simpl
           end; reflexivity.
Qed.

Lemma getExpression_world value w : (getExpression host value w).2 = w.
Proof. by rewrite getExpression_unfold. Qed.

Lemma setter_meta value w :
  setter host _meta value w = (Return tt, with_property _meta value w).
Proof. reflexivity. Qed.

Lemma setter_unfold p value w :
  p ≠ _meta →
  setter host p value w =
    match (getExpression host value w).1 with
    | Return e => (Return tt, invalidate p (with_property p e w))
    | Throw x => (Throw x, w)
    end.
Proof.
  intros Hp. pose proof (getExpression_world value w) as Hw.
  destruct p; try congruence; unfold setter, bind, update;
    destruct (getExpression host value w) as [[e|x] w']; simpl in *; subst; reflexivity.
Qed.

Lemma getter_unfold p w :
  getter p w =
    (if _ready w then Return (field w p) else Throw (DeveloperError notLoaded), w).
Proof. unfold getter, bind, read, throw. by destruct (_ready w). Qed.

Lemma get_style_unfold w :
  get_style w =
    (if _ready w then Return (_style w) else Throw (DeveloperError notLoaded), w).
Proof. unfold get_style, bind, read, throw. by destruct (_ready w). Qed.

Lemma shaderFunction_memoized q fn ap ss w :
  shaderFunction host q fn ap ss w = memoized host q fn ap ss w.
Proof.
  destruct q;
    cbv [shaderFunction memoized getColorShaderFunction getShowShaderFunction
         getPointSizeShaderFunction shaderReady shaderCache shaderProperty
         returnType getter bind read update ret throw call_getShaderFunction];
    unfold_updates;
    match goal with |- context [if ?b then _ else _] => destruct b end;
    try reflexivity;
    destruct (_ready w); cbn [negb]; unfold_updates; try reflexivity;
    match goal with |- context [defined ?x] => destruct (defined x) end;
    unfold_updates; try reflexivity;
    cbn -[writeAll];
    match goal with |- context [getShaderFunction ?a ?b ?c ?d ?e ?f ?g] =>
      destruct (getShaderFunction a b c d e f g) as [[f0|x] ws] end; reflexivity.
Qed.

(** ** Frame rules *)

Lemma setter_preserves P p value :
  (∀ e w, P w → P (invalidate p (with_property p e w))) →
  preserves P (setter host p value).
Proof.
  intros HP w Hw. destruct (decide (p = _meta)) as [->|Hp].
  - rewrite setter_meta. apply (HP value w Hw).
  - rewrite setter_unfold by done.
    destruct (getExpression host value w).1; [ by apply HP | done ].
Qed.

Lemma assignAll_keeps P styleJson ps :
  (∀ p e w, P w → P (invalidate p (with_property p e w))) →
  preserves P (assignAll host styleJson ps).
Proof.
  intros HP. induction ps as [|p ps IH]; simpl.
  - apply hoare_ret.
  - apply preserves_bind; [ apply hoare_read | intros value ].
    apply preserves_bind; [ | intros _; exact IH ].
    apply setter_preserves. intros e w. apply HP.
Qed.

Lemma assignAll_preserves P styleJson ps :
  stable P → preserves P (assignAll host styleJson ps).
Proof. intros HP. apply assignAll_keeps, (stable_assign P HP). Qed.

Lemma deepClone_preserves P v :
  stable P → preserves P (deepClone host v).
Proof.
  intros HP w Hw. unfold deepClone.
  destruct (clone host (stackDepth host) v (heap w)) as [[a|x] h'];
    by apply (stable_heap P HP).
Qed.

Lemma allocate_preserves P (ob : object number) :
  stable P → preserves P (allocate ob).
Proof. intros HP w Hw. by apply (stable_heap P HP). Qed.

Lemma assign_preserves P target k v :
  stable P → preserves P (assign target k v).
Proof.
  intros HP w Hw. destruct target; simpl; try exact Hw.
  destruct (String.eqb k "__proto__"); [ exact Hw | ].
  by apply (stable_heap P HP).
Qed.

Lemma new_Expression_world e d w : (new_Expression host e d w).2 = w.
Proof. unfold new_Expression. by destruct (Expression_rejects host (heap w) e d). Qed.

Lemma wrapMeta_keeps P metaJson defines meta keys :
  (∀ k e, preserves P (assign meta k e)) →
  preserves P (wrapMeta host metaJson defines meta keys).
Proof.
  intros HP. induction keys as [|k keys IH]; simpl.
  - apply hoare_ret.
  - apply preserves_bind; [ apply hoare_lift | intros isOwn ].
    apply preserves_bind; [ | intros _; exact IH ].
    destruct isOwn; [ | apply hoare_ret ].
    apply preserves_bind; [ apply hoare_read | intros value ].
    apply preserves_bind; [ | intros e; apply HP ].
    apply unchanged_preserves, new_Expression_world.
Qed.

Lemma wrapMeta_preserves P metaJson defines meta keys :
  stable P → preserves P (wrapMeta host metaJson defines meta keys).
Proof. intros HP. apply wrapMeta_keeps. intros k e. by apply assign_preserves. Qed.

(** [setup] keeps a stable predicate up to its last statement, which is
    reached only when nothing has thrown. *)
Lemma setup_hoare P styleJson :
  stable P →
  hoare P (setup host styleJson)
    (λ _ w, ∃ w0, P w0 ∧ w = with_ready true w0) P.
Proof.
  intros HP. unfold setup.
  eapply hoare_bind with (Q := λ _, P); [ by apply deepClone_preserves | intros style; cbv beta ].
  eapply hoare_bind with (Q := λ _, P);
    [ apply hoare_update; intros w Hw; apply (stable_style P HP _ _ Hw) | intros _; cbv beta ].
  eapply hoare_bind with (Q := λ _, P); [ by apply assignAll_preserves | intros _; cbv beta ].
  eapply hoare_bind with (Q := λ _, P); [ by apply allocate_preserves | intros meta; cbv beta ].
  eapply hoare_bind with (Q := λ _, P); [ apply hoare_read | intros metaJson; cbv beta ].
  eapply hoare_bind with (Q := λ _, P).
  { destruct (defined metaJson); [ | apply hoare_ret ].
    apply preserves_bind; [ apply hoare_read | intros defines ].
    apply preserves_bind; [ apply hoare_read | intros keys ].
    by apply wrapMeta_preserves. }
  intros _.
  eapply hoare_bind with (Q := λ _, P).
  { apply hoare_update. intros w Hw. apply (stable_assign P HP _meta meta w Hw). }
  intros _. apply hoare_update. intros w Hw. by exists w.
Qed.

Lemma setup_preserves P styleJson :
  stable P → (∀ w, P w → P (with_ready true w)) →
  preserves P (setup host styleJson).
Proof.
  intros HP Hr. eapply hoare_weaken; [ by apply setup_hoare | done | | done ].
  intros _ w (w0 & H0 & ->). by apply Hr.
Qed.

Lemma memoized_preserves P q fn ap ss w :
  api_stable P → P w → P (memoized host q fn ap ss w).2.
Proof.
  intros HP Hw. unfold memoized.
  destruct (shaderReady q w); [ done | ].
  destruct (_ready w); cbn [negb]; [ | by apply (api_flag P HP) ].
  destruct (defined _).
  - destruct (getShaderFunction _ _ _ _ _ _ _) as [[f|x] ws]; cbn [snd].
    + by apply (api_cache P HP), (stable_heap P HP), (api_log P HP), (api_flag P HP).
    + by apply (stable_heap P HP), (api_log P HP), (api_flag P HP).
  - by apply (api_cache P HP), (api_flag P HP).
Qed.

Lemma run_api_preserves P o w :
  api_stable P → isLoad o = false → P w → P (run host o w).
Proof.
  intros HP Ho Hw. destruct o; try discriminate; cbn [run].
  - by rewrite getter_unfold.
  - apply preserves_snd; [ | done ].
    apply setter_preserves. intros e' w'. apply (stable_assign P HP).
  - by rewrite get_style_unfold.
  - done.
  - done.
  - rewrite shaderFunction_memoized. by apply memoized_preserves.
  - by apply (stable_heap P HP).
  - by apply (stable_heap P HP).
Qed.

Ltac solve_stable :=
  repeat match goal with
         | |- stable _ => split
         | |- api_stable _ => split
         | |- ∀ _, _ => intro
         | q : shaderKind |- _ => destruct q
         | p : property |- _ => destruct p
         end;
  unfold_updates; intuition (try congruence).

Lemma ready_promise_api_stable (b : bool) (pr : promise) :
  api_stable (λ w, _ready w = b ∧ _readyPromise w = pr).
Proof. solve_stable. Qed.

Lemma ready_api_stable (b : bool) : api_stable (λ w, _ready w = b).
Proof. solve_stable. Qed.

(** ** Readiness *)

(** Once the promise has settled, no operation changes it or [_ready]. *)
Lemma run_settled o w :
  _readyPromise w ≠ Pending →
  _ready (run host o w) = _ready w ∧ _readyPromise (run host o w) = _readyPromise w.
Proof.
  intros Hs. destruct (isLoad o) eqn:Ho.
  - destruct o; try discriminate; cbn [run];
      destruct (_readyPromise w) eqn:Hp; first [ congruence | done ].
  - by apply (run_api_preserves (λ w', _ready w' = _ready w ∧ _readyPromise w' = _readyPromise w));
      [ apply ready_promise_api_stable | | ].
Qed.

Lemma thenSetup_ready styleJson w :
  _ready (thenSetup host styleJson w) =
    (if returned (setup host styleJson w).1 then true else _ready w) ∧
  _readyPromise (thenSetup host styleJson w) =
    match (setup host styleJson w).1 with
    | Return _ => Fulfilled
    | Throw x => Rejected x
    end.
Proof.
  pose proof (setup_hoare (λ w', _ready w' = _ready w) styleJson
                (api_setup _ (ready_api_stable (_ready w))) w eq_refl) as H.
  unfold thenSetup. destruct (setup host styleJson w) as [[[]|x] w']; cbn [fst returned].
  - destruct H as (w0 & _ & ->). by unfold_updates.
  - by unfold_updates.
Qed.

(** [_ready] never goes back to [false]. *)
Lemma run_ready_mono o w : _ready w = true → _ready (run host o w) = true.
Proof.
  intros Hr. destruct (isLoad o) eqn:Ho.
  - destruct o; try discriminate; cbn [run]; destruct (_readyPromise w); try done.
    destruct (thenSetup_ready styleJson w) as [-> _]. rewrite Hr. by destruct (returned _).
  - by apply (run_api_preserves (λ w', _ready w' = true)); [ apply ready_api_stable | | ].
Qed.

(** [_ready] becomes [true] in one way only. *)
Lemma run_becomes_ready o w :
  _ready w = false → _ready (run host o w) = true →
  ∃ styleJson, o = LoadResolved styleJson ∧ _readyPromise w = Pending ∧
    (setup host styleJson w).1 = Return tt ∧
    _readyPromise (run host o w) = Fulfilled.
Proof.
  intros Hf Ht. destruct (isLoad o) eqn:Ho.
  - destruct o; try discriminate; cbn [run] in *.
    + destruct (_readyPromise w) eqn:Hp; try congruence.
      exists styleJson. destruct (thenSetup_ready styleJson w) as [H1 H2].
      rewrite H1 in Ht. rewrite H2.
      destruct (setup host styleJson w).1 as [[]|x]; cbn in *; [ done | congruence ].
    + destruct (_readyPromise w); unfold_updates; congruence.
  - pose proof (run_api_preserves (λ w', _ready w' = false) o w
                  (ready_api_stable false) Ho Hf). simpl in *. congruence.
Qed.

Lemma runAll_cons o os w : runAll host (o :: os) w = runAll host os (run host o w).
Proof. reflexivity. Qed.

Lemma runAll_ready_mono os w : _ready w = true → _ready (runAll host os w) = true.
Proof.
  revert w. induction os as [|o os IH]; intros w Hr; [ done | ].
  rewrite runAll_cons. by apply IH, run_ready_mono.
Qed.

Lemma runAll_settled os w :
  _readyPromise w ≠ Pending →
  _ready (runAll host os w) = _ready w ∧
  _readyPromise (runAll host os w) = _readyPromise w.
Proof.
  revert w. induction os as [|o os IH]; intros w Hs; [ done | ].
  rewrite runAll_cons. destruct (run_settled o w Hs) as [H1 H2].
  destruct (IH (run host o w)) as [H3 H4]; [ congruence | ].
  split; congruence.
Qed.

(** ** What an assignment changes *)

Lemma assigned_field_same p e w : field (assigned p e w) p = e.
Proof. unfold assigned. destruct p; unfold_updates; by rewrite decide_True. Qed.

Lemma assigned_field_other p p' e w : p' ≠ p → field (assigned p e w) p' = field w p'.
Proof. intros Hp. unfold assigned. destruct p; unfold_updates; by rewrite decide_False. Qed.

Lemma assigned_flag_same q e w : shaderReady q (assigned (shaderProperty q) e w) = false.
Proof. by destruct q. Qed.

Lemma assigned_flag_other p q e w :
  p ≠ shaderProperty q → shaderReady q (assigned p e w) = shaderReady q w.
Proof. intros Hp. destruct q, p; done. Qed.

Lemma assigned_cache p q e w : shaderCache q (assigned p e w) = shaderCache q w.
Proof. destruct q, p; done. Qed.

Lemma assigned_rest p e w :
  heap (assigned p e w) = heap w ∧ _style (assigned p e w) = _style w ∧
  _ready (assigned p e w) = _ready w ∧
  _readyPromise (assigned p e w) = _readyPromise w ∧
  compiled (assigned p e w) = compiled w.
Proof. destruct p; done. Qed.

(** The outcome of a setter in terms of [assigned]. *)
Lemma setter_assigned p value w :
  setter host p value w =
    if decide (p = _meta) then (Return tt, assigned _meta value w)
    else match (getExpression host value w).1 with
         | Return e => (Return tt, assigned p e w)
         | Throw x => (Throw x, w)
         end.
Proof.
  case_decide as Hp; [ subst; apply setter_meta | by apply setter_unfold ].
Qed.

(** ** The invariant *)

Lemma consistent_assigned p e w : consistent w → consistent (assigned p e w).
Proof.
  intros (I1 & I2 & I3). destruct (assigned_rest p e w) as (_ & _ & Hr & Hp & _).
  split; [ | split ].
  - rewrite Hr, Hp. exact I1.
  - rewrite Hr. intros Hf q. rewrite assigned_cache. by apply I2.
  - intros q Hflag Hdef. rewrite assigned_cache.
    destruct (decide (p = shaderProperty q)) as [->|Hne].
    + by rewrite assigned_flag_same in Hflag.
    + rewrite assigned_flag_other in Hflag by done.
      rewrite assigned_field_other in Hdef by done. by apply I3.
Qed.

Lemma consistent_heap h' w : consistent w → consistent (with_heap h' w).
Proof. intros (I1 & I2 & I3). split; [ | split ]; [ exact I1 | exact I2 | exact I3 ]. Qed.

Ltac each_kind H :=
  pose proof (H SColor); pose proof (H SShow); pose proof (H SPointSize).

Ltac by_kinds :=
  intros;
  repeat match goal with q : shaderKind |- _ => destruct q end;
  unfold_updates;
  cbn [shaderReady shaderCache shaderProperty returnType] in *;
  intuition congruence.

Lemma memoized_consistent q fn ap ss w :
  consistent w → consistent (memoized host q fn ap ss w).2.
Proof.
  intros (I1 & I2 & I3). unfold memoized.
  destruct (shaderReady q w) eqn:Hflag; [ done | ].
  each_kind I3.
  destruct (_ready w) eqn:Hr; cbn [negb].
  - destruct (defined (field w (shaderProperty q))) eqn:Hd;
      [ destruct (getShaderFunction _ _ _ _ _ _ _) as [[? | ?] ?] | ]; cbn [snd];
      (split; [ | split ]); by_kinds.
  - cbn [snd]. specialize (I2 eq_refl). each_kind I2.
    split; [ | split ]; by_kinds.
Qed.

(** A style that is not ready and has cached nothing is consistent after
    the load callback, however [setup] ends. *)
Lemma thenSetup_consistent styleJson w :
  _ready w = false → (∀ q, shaderCache q w = VUndefined) →
  consistent (thenSetup host styleJson w).
Proof.
  intros Hr Hc.
  assert (stable (λ w', _ready w' = false ∧ ∀ q, shaderCache q w' = VUndefined)) as HP.
  { split.
    - intros h' w' [H1 H2]. split; [ done | intros q; apply (H2 q) ].
    - intros s' w' [H1 H2]. split; [ done | intros q; specialize (H2 q); by destruct q ].
    - intros p e w' [H1 H2]. fold (assigned p e w').
      destruct (assigned_rest p e w') as (_ & _ & -> & _). split; [ done | ].
      intros q. by rewrite assigned_cache. }
  pose proof (setup_hoare _ styleJson HP w (conj Hr Hc)) as H.
  unfold thenSetup. destruct (setup host styleJson w) as [[[]|x] w'].
  - destruct H as (w0 & [H1 H2] & ->).
    split; [ | split ]; [ done | by unfold_updates | ].
    intros q _ _. specialize (H2 q). by destruct q.
  - destruct H as [H1 H2].
    split; [ | split ]; [ unfold_updates; congruence | | ].
    + intros _ q. specialize (H2 q). by destruct q.
    + intros q _ _. specialize (H2 q). by destruct q.
Qed.

Lemma run_consistent o w : consistent w → consistent (run host o w).
Proof.
  intros Hw. destruct o; cbn [run].
  - by rewrite getter_unfold.
  - rewrite setter_assigned. case_decide; [ by apply consistent_assigned | ].
    destruct (getExpression host value w).1; [ by apply consistent_assigned | done ].
  - by rewrite get_style_unfold.
  - done.
  - done.
  - rewrite shaderFunction_memoized. by apply memoized_consistent.
  - destruct (_readyPromise w) eqn:Hp; try done.
    destruct Hw as (I1 & I2 & I3).
    destruct (_ready w) eqn:Hr; [ specialize (I1 eq_refl); congruence | ].
    apply thenSetup_consistent; [ done | by apply I2 ].
  - destruct (_readyPromise w) eqn:Hp; try done.
    destruct Hw as (I1 & I2 & I3).
    destruct (_ready w) eqn:Hr; [ specialize (I1 eq_refl); congruence | ].
    split; [ | split ]; [ unfold_updates; congruence | intros _; exact (I2 eq_refl) | exact I3 ].
  - by apply consistent_heap.
  - by apply consistent_heap.
Qed.

Lemma new_consistent style h : consistent (Cesium3DTileStyle host style h).
Proof.
  unfold Cesium3DTileStyle. destruct (String.eqb _ _).
  - split; [ | split ]; [ done | by intros _ [] | by intros [] ].
  - apply thenSetup_consistent; [ done | by intros [] ].
Qed.

Lemma reachable_consistent w : reachable host w → consistent w.
Proof.
  induction 1 as [style h | o w _ IH]; [ apply new_consistent | by apply run_consistent ].
Qed.

Lemma runAll_reachable os w : reachable host w → reachable host (runAll host os w).
Proof.
  revert w. induction os as [|o os IH]; intros w Hw; [ done | ].
  rewrite runAll_cons. apply IH. by constructor.
Qed.

(** ** Memoization *)

Lemma compiledFor_logCall_other q q' e fn ap ss w :
  q' ≠ q → compiledFor q (logCall e fn ap ss (returnType q') w) = compiledFor q w.
Proof.
  intros Hq. unfold compiledFor, logCall. unfold_updates.
  rewrite filter_cons_False; [ done | ]. cbn. by destruct q, q'.
Qed.

(** A set flag makes the accessor return the cache and touch nothing. *)
Lemma shaderFunction_cached q fn ap ss w :
  shaderReady q w = true →
  shaderFunction host q fn ap ss w = (Return (shaderCache q w), w).
Proof. intros H. rewrite shaderFunction_memoized. unfold memoized. by rewrite H. Qed.

(** After any call the flag is set, and a returned value is the cache. *)
Lemma shaderFunction_sets_flag q fn ap ss w :
  shaderReady q (shaderFunction host q fn ap ss w).2 = true ∧
  ∀ f, (shaderFunction host q fn ap ss w).1 = Return f →
       shaderCache q (shaderFunction host q fn ap ss w).2 = f.
Proof.
  rewrite shaderFunction_memoized. unfold memoized.
  destruct (shaderReady q w) eqn:Hflag; [ split; [ done | by intros f [= <-] ] | ].
  destruct (_ready w); cbn [negb];
    [ destruct (defined _); [ destruct (getShaderFunction _ _ _ _ _ _ _) as [[? | ?] ?] | ] | ];
    cbn [fst snd]; (split; [ by destruct q | intros f' [= <-] || intros f' [=] ]);
    by destruct q.
Qed.

Lemma run_keeps q o w :
  shaderReady q w = true → assigns q o = false →
  (isLoadResolved o = true → _readyPromise w ≠ Pending) →
  keeps q w (run host o w).
Proof.
  intros Hflag Ho Hload. unfold keeps. destruct o; cbn [run].
  - by rewrite getter_unfold.
  - cbn in Ho. apply bool_decide_eq_false in Ho.
    rewrite setter_assigned.
    assert (∀ e', keeps q w (assigned p e' w)) as Hk.
    { intros e'. unfold keeps, compiledFor.
      destruct (assigned_rest p e' w) as (_ & _ & _ & _ & ->).
      by rewrite assigned_flag_other, assigned_cache. }
    case_decide; [ subst p; apply Hk | ].
    destruct (getExpression host value w).1; [ apply Hk | done ].
  - by rewrite get_style_unfold.
  - done.
  - done.
  - destruct (decide (q0 = q)) as [->|Hq]; [ by rewrite shaderFunction_cached | ].
    rewrite shaderFunction_memoized. unfold memoized.
    destruct (shaderReady q0 w); [ done | ].
    destruct (_ready w); cbn [negb];
      [ destruct (defined _); [ destruct (getShaderFunction _ _ _ _ _ _ _) as [[? | ?] ?] | ] | ];
      cbn [snd].
    + split; [ | split ]; [ by destruct q, q0 | by destruct q, q0 | ].
      transitivity (compiledFor q (logCall (field w (shaderProperty q0)) functionName0
                      attributePrefix0 shaderState0 (returnType q0) w));
        [ by destruct q, q0 | by apply compiledFor_logCall_other ].
    + split; [ | split ]; [ by destruct q, q0 | by destruct q, q0 | ].
      transitivity (compiledFor q (logCall (field w (shaderProperty q0)) functionName0
                      attributePrefix0 shaderState0 (returnType q0) w));
        [ by destruct q, q0 | by apply compiledFor_logCall_other ].
    + by destruct q, q0.
    + by destruct q, q0.
  - destruct (_readyPromise w); [ by destruct Hload | done | done ].
  - destruct (_readyPromise w); by destruct q.
  - by destruct q.
  - by destruct q.
Qed.

Lemma keeps_trans q w1 w2 w3 : keeps q w1 w2 → keeps q w2 w3 → keeps q w1 w3.
Proof. unfold keeps. intuition congruence. Qed.

(** On a ready style only the setter of the property clears the memo. *)
Lemma runAll_keeps_ready q os w :
  reachable host w → _ready w = true → shaderReady q w = true →
  Forall (λ o, assigns q o = false) os →
  keeps q w (runAll host os w).
Proof.
  intros Hw Hr Hflag Hos. revert w Hw Hr Hflag.
  induction Hos as [|o os Ho _ IH]; intros w Hw Hr Hflag; [ done | ].
  rewrite runAll_cons.
  assert (keeps q w (run host o w)) as Hk.
  { apply run_keeps; [ done | done | intros _ ].
    destruct (reachable_consistent w Hw) as (I1 & _). rewrite (I1 Hr). done. }
  eapply keeps_trans; [ exact Hk | ].
  apply IH; [ by constructor | by apply run_ready_mono | apply Hk ].
Qed.

(** Before the load completes the memo also survives whatever is not a
    setter call. *)
Lemma runAll_keeps q os w :
  shaderReady q w = true → Forall (λ o, sets q o = false) os →
  keeps q w (runAll host os w).
Proof.
  intros Hflag Hos. revert w Hflag.
  induction Hos as [|o os Ho _ IH]; intros w Hflag; [ done | ].
  rewrite runAll_cons. apply orb_false_iff in Ho as [Ho1 Ho2].
  assert (keeps q w (run host o w)) as Hk.
  { apply run_keeps; [ done | done | congruence ]. }
  eapply keeps_trans; [ exact Hk | ]. apply IH, Hk.
Qed.

(** [setup] returns with the three flags cleared: it has assigned [show],
    [color] and [pointSize] through their setters. *)
Lemma assignAll_clears_flags styleJson ps :
  hoare (λ w, ∀ q, shaderProperty q ∉ ps → shaderReady q w = false)
    (assignAll host styleJson ps)
    (λ _ w, ∀ q, shaderReady q w = false) (λ _, True).
Proof.
  induction ps as [|p ps IH]; simpl.
  - intros w Hw q. apply Hw, not_elem_of_nil.
  - eapply hoare_bind with (Q := λ _ w, ∀ q, shaderProperty q ∉ p :: ps → shaderReady q w = false);
      [ intros w Hw; exact Hw | intros value ].
    eapply hoare_bind with (Q := λ _ w, ∀ q, shaderProperty q ∉ ps → shaderReady q w = false);
      [ | intros []; exact IH ].
    intros w Hw. rewrite setter_assigned.
    assert (∀ e' q, shaderProperty q ∉ ps → shaderReady q (assigned p e' w) = false) as Hk.
    { intros e' q Hq. destruct (decide (p = shaderProperty q)) as [->|Hne].
      - apply assigned_flag_same.
      - rewrite assigned_flag_other by done. apply Hw.
        apply not_elem_of_cons. split; [ congruence | done ]. }
    case_decide; [ subst p; apply Hk | ].
    destruct (getExpression host value w).1; [ apply Hk | done ].
Qed.

Lemma flags_clear_stable : stable (λ w : world number, ∀ q, shaderReady q w = false).
Proof.
  split.
  - intros h' w Hw q. specialize (Hw q). by destruct q.
  - intros s' w Hw q. specialize (Hw q). by destruct q.
  - intros p e w Hw q. specialize (Hw q). by destruct q, p.
Qed.

Lemma setup_clears_flags styleJson w q :
  (setup host styleJson w).1 = Return tt →
  shaderReady q (setup host styleJson w).2 = false.
Proof.
  assert (hoare (λ _, True) (setup host styleJson)
            (λ _ w', ∀ q, shaderReady q w' = false) (λ _, True)) as H.
  { pose proof flags_clear_stable as HP. unfold setup.
    eapply hoare_bind with (Q := λ _ _, True);
      [ intros w' _; by destruct (deepClone host styleJson w') as [[]] | intros style ].
    eapply hoare_bind with (Q := λ _ _, True); [ done | intros _ ].
    eapply hoare_bind with (Q := λ _ w', ∀ q, shaderReady q w' = false).
    { eapply hoare_weaken; [ apply assignAll_clears_flags | | done | done ].
      intros w' _ q' Hq'. exfalso. apply Hq'. destruct q'; repeat constructor. }
    intros _. set (P := λ w' : world number, ∀ q, shaderReady q w' = false).
    eapply hoare_weaken with (P' := P) (Q' := λ _, P) (E' := P); [ | done | done | done ].
    apply preserves_bind; [ by apply allocate_preserves | intros meta ].
    apply preserves_bind; [ apply hoare_read | intros metaJson ].
    apply preserves_bind.
    { destruct (defined metaJson); [ | apply hoare_ret ].
      apply preserves_bind; [ apply hoare_read | intros defines ].
      apply preserves_bind; [ apply hoare_read | intros keys ].
      by apply wrapMeta_preserves. }
    intros _. apply preserves_bind.
    - apply hoare_update. intros w' Hw'. apply (stable_assign P HP _meta meta w' Hw').
    - intros _. apply hoare_update. intros w' Hw' q'. specialize (Hw' q'). by destruct q'. }
  intros Hret. specialize (H w I).
  destruct (setup host styleJson w) as [[[]|x] w']; [ apply H | discriminate ].
Qed.

Lemma run_stays_not_ready o w :
  isLoadResolved o = false → _ready w = false → _ready (run host o w) = false.
Proof.
  intros Ho Hf. destruct (_ready (run host o w)) eqn:Ht; [ | done ].
  destruct (run_becomes_ready o w Hf Ht) as (styleJson & -> & _). discriminate.
Qed.

Lemma runAll_stays_not_ready os w :
  Forall (λ o, isLoadResolved o = false) os → _ready w = false →
  _ready (runAll host os w) = false.
Proof.
  intros Hos. revert w. induction Hos as [|o os Ho _ IH]; intros w Hf; [ done | ].
  rewrite runAll_cons. by apply IH, run_stays_not_ready.
Qed.

(** ** The claims *)

(** C1 (amended).  While [ready] is false the getter of every stylable
    property, [meta] included, throws the DeveloperError "The style is not
    loaded" and changes nothing.  The setters do not look at [ready]:
    [setup] itself assigns through them before the flag is set, and on a
    style that is not ready a setter does exactly what it does on the same
    style once marked ready. *)
Theorem getters_refuse_until_ready p w :
  _ready w = false →
  getter p w = (Throw (DeveloperError notLoaded), w) ∧
  ∀ value,
    setter host p value (with_ready true w) =
      (let '(r, w') := setter host p value w in (r, with_ready true w')).
Proof.
  intros Hr. split; [ rewrite getter_unfold; by rewrite Hr | intros value ].
  rewrite !setter_assigned.
  assert ((getExpression host value (with_ready true w)).1
          = (getExpression host value w).1) as -> by (by rewrite !getExpression_unfold).
  case_decide; [ by subst p | ].
  destruct (getExpression host value w).1; [ by destruct p | done ].
Qed.

(** C2.  Once a shader function of kind [q] has been computed, assigning
    any other property (another of the three, or any further stylable
    property) leaves it in place: the accessor of [q] still returns the same
    function and changes nothing.  An assignment to the property of [q]
    itself, when its setter returns, clears the flag of [q] and of no other
    kind. *)
Theorem reassignment_clears_only_its_own_cache q p value fn ap ss f fn' ap' ss' w :
  (shaderFunction host q fn ap ss w).1 = Return f →
  p ≠ shaderProperty q →
  let w1 := (shaderFunction host q fn ap ss w).2 in
  let w2 := (setter host p value w1).2 in
  shaderFunction host q fn' ap' ss' w2 = (Return f, w2) ∧
  ∀ value',
    let w3 := (setter host (shaderProperty q) value' w2).2 in
    (setter host (shaderProperty q) value' w2).1 = Return tt →
    shaderReady q w3 = false ∧
    ∀ q', q' ≠ q → shaderReady q' w3 = shaderReady q' w2 ∧
                   shaderCache q' w3 = shaderCache q' w2.
Proof.
  intros Hf Hp w1 w2.
  destruct (shaderFunction_sets_flag q fn ap ss w) as [Hflag Hcache].
  specialize (Hcache f Hf). fold w1 in Hflag, Hcache.
  assert (keeps q w1 w2) as (Hflag2 & Hcache2 & _).
  { apply (run_keeps q (SetProperty p value) w1); [ done | | done ].
    cbn. by apply bool_decide_eq_false. }
  split.
  - rewrite shaderFunction_cached by done. by rewrite Hcache2, Hcache.
  - intros value' w3 Hret. subst w3. rewrite setter_assigned in Hret |- *.
    assert (shaderProperty q ≠ _meta) as Hm by (by destruct q).
    rewrite decide_False in Hret |- * by done.
    destruct (getExpression host value' w2).1 as [e|x]; [ | discriminate ].
    cbn [snd]. split; [ apply assigned_flag_same | intros q' Hq' ].
    rewrite assigned_cache. split; [ | done ].
    apply assigned_flag_other. by destruct q, q'.
Qed.

(** The memo a first call leaves on a ready style survives everything but
    an assignment to the property. *)
Lemma first_call_memo_survives q fn ap ss os w :
  reachable host w → _ready w = true →
  Forall (λ o, assigns q o = false) os →
  keeps q (shaderFunction host q fn ap ss w).2
    (runAll host os (shaderFunction host q fn ap ss w).2).
Proof.
  intros Hw Hr Hos.
  destruct (shaderFunction_sets_flag q fn ap ss w) as [Hflag _].
  apply runAll_keeps_ready; [ | | done | done ].
  - apply (reachable_run host (ShaderFunction q fn ap ss) w Hw).
  - apply (run_ready_mono (ShaderFunction q fn ap ss) w Hr).
Qed.

(** C4.  On a ready style, after a first call of a shader-function
    accessor, and whatever else is done to the style except assigning the
    corresponding property, a further call returns the cached value of the
    first call and changes nothing; the expression's [getShaderFunction] has
    been called at most once, by the first call. *)
Theorem shader_function_compiled_once q fn ap ss os fn' ap' ss' w :
  reachable host w → _ready w = true →
  Forall (λ o, assigns q o = false) os →
  let w1 := (shaderFunction host q fn ap ss w).2 in
  let w2 := runAll host os w1 in
  shaderFunction host q fn' ap' ss' w2 = (Return (shaderCache q w1), w2) ∧
  (∀ f, (shaderFunction host q fn ap ss w).1 = Return f → shaderCache q w1 = f) ∧
  compiledFor q w2 = compiledFor q w1 ∧
  ∃ calls, compiledFor q w1 = (calls ++ compiledFor q w)%list ∧ (length calls ≤ 1)%nat.
Proof.
  intros Hw Hr Hos w1 w2.
  destruct (shaderFunction_sets_flag q fn ap ss w) as [Hflag Hcache].
  fold w1 in Hflag, Hcache.
  destruct (first_call_memo_survives q fn ap ss os w Hw Hr Hos)
    as (Hflag2 & Hcache2 & Hlog).
  fold w1 in Hflag2, Hcache2, Hlog.
  fold w2 in Hflag2, Hcache2, Hlog.
  split; [ | split; [ | split ] ]; [ | done | done | ].
  - rewrite shaderFunction_cached by done. by rewrite Hcache2.
  - subst w1. rewrite shaderFunction_memoized. unfold memoized.
    destruct (shaderReady q w); [ exists []; split; [ done | cbn; lia ] | ].
    rewrite Hr. cbn [negb].
    destruct (defined _); [ destruct (getShaderFunction _ _ _ _ _ _ _) as [[? | ?] ?] | ]; cbn [snd].
    + eexists [_]. split; [ | cbn; lia ]. by destruct q.
    + eexists [_]. split; [ | cbn; lia ]. by destruct q.
    + exists []. split; [ | cbn; lia ]. by destruct q.
Qed.

Lemma runAll_stays_pending os w :
  Forall (λ o, isLoad o = false) os → _readyPromise w = Pending →
  _readyPromise (runAll host os w) = Pending.
Proof.
  intros Hos. revert w. induction Hos as [|o os Ho _ IH]; intros w Hp; [ done | ].
  rewrite runAll_cons. apply IH.
  apply (run_api_preserves (λ w', _ready w' = _ready w ∧ _readyPromise w' = Pending) o w
           (ready_promise_api_stable _ _) Ho). done.
Qed.

(** C5 (amended).  The constructor runs [setup] on an inline style before
    it returns: [ready] is true at once exactly when [setup] completes, with
    the promise fulfilled; if [setup] throws, [ready] is false and the
    promise is rejected with what was thrown.  A style built from a url is
    not ready, its promise pending; it stays not ready whatever is done to
    it until the load resolves, and is ready as soon as the load resolves
    with a document on which [setup] completes. *)
Theorem ready_after_construction style h :
  let w := Cesium3DTileStyle host style h in
  if String.eqb (typeof style) "string" then
    _ready w = false ∧ _readyPromise w = Pending ∧
    (∀ os, Forall (λ o, isLoadResolved o = false) os →
           _ready (runAll host os w) = false) ∧
    (∀ os styleJson,
       Forall (λ o, isLoad o = false) os →
       (setup host styleJson (runAll host os w)).1 = Return tt →
       _ready (run host (LoadResolved styleJson) (runAll host os w)) = true)
  else
    match (setup host style (initial h)).1 with
    | Return _ => _ready w = true ∧ _readyPromise w = Fulfilled
    | Throw x => _ready w = false ∧ _readyPromise w = Rejected x
    end.
Proof.
  intros w. subst w. unfold Cesium3DTileStyle.
  destruct (String.eqb (typeof style) "string").
  - split; [ done | split; [ done | split ] ].
    + intros os Hos. by apply runAll_stays_not_ready.
    + intros os styleJson Hos Hret. cbn [run].
      rewrite runAll_stays_pending by done.
      destruct (thenSetup_ready styleJson
                  (runAll host os (with_readyPromise Pending (initial h)))) as [-> _].
      by rewrite Hret.
  - destruct (thenSetup_ready style (initial h)) as [-> ->].
    by destruct (setup host style (initial h)).1.
Qed.

(** C7.  Readiness is monotone and settles once.  No operation makes a
    ready style not ready.  [ready] turns true only on the resolution of a
    pending load whose [setup] completes, and the promise is then
    fulfilled.  A settled promise, and [ready] with it, is never changed
    again.  When the pending load rejects, the promise is rejected with the
    failure and the style stays not ready for ever. *)
Theorem readiness_settles_once o w :
  reachable host w →
  (_ready w = true → _ready (run host o w) = true) ∧
  (_ready w = false → _ready (run host o w) = true →
     ∃ styleJson, o = LoadResolved styleJson ∧ _readyPromise w = Pending ∧
       (setup host styleJson w).1 = Return tt ∧
       _readyPromise (run host o w) = Fulfilled) ∧
  (_readyPromise w ≠ Pending →
     _ready (run host o w) = _ready w ∧
     _readyPromise (run host o w) = _readyPromise w) ∧
  (∀ reason os, _readyPromise w = Pending →
     let w' := runAll host os (run host (LoadRejected reason) w) in
     _ready w' = false ∧ _readyPromise w' = Rejected reason).
Proof.
  intros Hw. split; [ | split; [ | split ] ].
  - apply run_ready_mono.
  - apply run_becomes_ready.
  - apply run_settled.
  - intros reason os Hp w'. subst w'. cbn [run]. rewrite Hp.
    destruct (runAll_settled os (with_readyPromise (Rejected reason) w)) as [-> ->];
      [ done | ].
    split; [ | done ]. unfold_updates.
    destruct (reachable_consistent w Hw) as (I1 & _).
    destruct (_ready w); [ | done ]. specialize (I1 eq_refl). congruence.
Qed.

(** C8 (amended).  An accessor sets its flag before it reads the property
    through the getter.  Called on a style that is not ready, with the flag
    clear, it throws the not-ready error and leaves the flag set over the
    cached value [undefined].  From then on, as long as the property is not
    assigned (neither by its setter nor by the completion of the load),
    every call returns [undefined] and compiles nothing.  The completion of
    the load assigns the property in [setup]: a style that becomes ready has
    the flag clear again. *)
Theorem early_request_marks_the_cache q fn ap ss w :
  reachable host w → _ready w = false → shaderReady q w = false →
  let w1 := (shaderFunction host q fn ap ss w).2 in
  shaderFunction host q fn ap ss w
    = (Throw (DeveloperError notLoaded), with_shaderReady q true w) ∧
  shaderReady q w1 = true ∧ shaderCache q w1 = VUndefined ∧
  (∀ os fn' ap' ss',
     Forall (λ o, sets q o = false) os →
     let w2 := runAll host os w1 in
     shaderFunction host q fn' ap' ss' w2 = (Return VUndefined, w2) ∧
     compiledFor q w2 = compiledFor q w) ∧
  (∀ os styleJson,
     let w2 := runAll host os w1 in
     _ready w2 = false →
     _ready (run host (LoadResolved styleJson) w2) = true →
     shaderReady q (run host (LoadResolved styleJson) w2) = false).
Proof.
  intros Hw Hr Hflag w1.
  assert (shaderFunction host q fn ap ss w
          = (Throw (DeveloperError notLoaded), with_shaderReady q true w)) as Hcall.
  { rewrite shaderFunction_memoized. unfold memoized. by rewrite Hflag, Hr. }
  assert (shaderReady q w1 = true) as Hflag1 by (subst w1; rewrite Hcall; by destruct q).
  assert (shaderCache q w1 = VUndefined) as Hcache1.
  { destruct (reachable_consistent w Hw) as (_ & I2 & _).
    subst w1. rewrite Hcall. specialize (I2 Hr q). by destruct q. }
  split; [ done | split; [ done | split; [ done | split ] ] ].
  - intros os fn' ap' ss' Hos w2.
    destruct (runAll_keeps q os w1 Hflag1 Hos) as (Hflag2 & Hcache2 & Hlog).
    fold w2 in Hflag2, Hcache2, Hlog. split.
    + rewrite shaderFunction_cached by done. by rewrite Hcache2, Hcache1.
    + rewrite Hlog. subst w1. rewrite Hcall. by destruct q.
  - intros os styleJson w2 Hf Ht.
    destruct (run_becomes_ready _ _ Hf Ht) as (doc & [= <-] & Hp & Hret & _).
    cbn [run] in *. rewrite Hp. unfold thenSetup.
    pose proof (setup_clears_flags styleJson w2 q Hret) as Hclear.
    destruct (setup host styleJson w2) as [[[]|x] w3]; [ | discriminate ].
    by destruct q.
Qed.

(** C9.  On a ready style whose property is unset, the accessor returns
    [undefined] without throwing and without calling any
    [getShaderFunction], and keeps returning [undefined] whatever else is
    done to the style, until the property is assigned. *)
Theorem unset_property_has_no_shader_function q fn ap ss w :
  reachable host w → _ready w = true →
  field w (shaderProperty q) = VUndefined →
  let w1 := (shaderFunction host q fn ap ss w).2 in
  (shaderFunction host q fn ap ss w).1 = Return VUndefined ∧
  compiled w1 = compiled w ∧
  ∀ os fn' ap' ss',
    Forall (λ o, assigns q o = false) os →
    let w2 := runAll host os w1 in
    shaderFunction host q fn' ap' ss' w2 = (Return VUndefined, w2) ∧
    compiledFor q w2 = compiledFor q w.
Proof.
  intros Hw Hr Hunset w1.
  destruct (reachable_consistent w Hw) as (_ & _ & I3).
  assert ((shaderFunction host q fn ap ss w).1 = Return VUndefined ∧
          compiled w1 = compiled w) as [Hres Hlog].
  { subst w1. rewrite shaderFunction_memoized. unfold memoized.
    destruct (shaderReady q w) eqn:Hflag.
    - cbn [fst snd]. by rewrite (I3 q Hflag) by (by rewrite Hunset).
    - rewrite Hr, Hunset. cbn. by destruct q. }
  split; [ done | split; [ done | ] ].
  intros os fn' ap' ss' Hos w2.
  destruct (first_call_memo_survives q fn ap ss os w Hw Hr Hos)
    as (Hflag2 & Hcache2 & Hlog2).
  fold w1 in Hflag2, Hcache2, Hlog2. fold w2 in Hflag2, Hcache2, Hlog2.
  destruct (shaderFunction_sets_flag q fn ap ss w) as [_ Hc].
  specialize (Hc _ Hres). fold w1 in Hc.
  split.
  - rewrite shaderFunction_cached by done. by rewrite Hcache2, Hc.
  - rewrite Hlog2. unfold compiledFor. by rewrite Hlog.
Qed.

(** C3 (amended).  The setter of every stylable property other than
    [meta] coerces the value it is given.  A boolean or a number becomes
    [new Expression(String(value))]; a string becomes [new Expression(value,
    defines)] and an object with a defined [conditions] member becomes
    [new ConditionsExpression(value, defines)], where [defines] is the
    [defines] member of the raw style held in [_style]; any other defined
    object is stored as it is; [undefined] is stored as [undefined].  When
    the constructor throws, the setter throws the same and stores nothing. *)
Theorem setter_coerces_its_value p w :
  p ≠ _meta →
  let defines := memberOrEmpty host (heap w) (_style w) "defines" in
  let stores (rejects : option exn) (x : jsval number) :=
    match rejects with
    | None => (Return tt, assigned p x w)
    | Some e => (Throw e, w)
    end in
  (∀ b, setter host p (VBool b) w =
        stores (Expression_rejects host (heap w)
                  (VString (if b then "true" else "false")) VUndefined)
               (VExpression (VString (if b then "true" else "false")) VUndefined)) ∧
  (∀ n, setter host p (VNumber n) w =
        stores (Expression_rejects host (heap w)
                  (VString (Number_toString host n)) VUndefined)
               (VExpression (VString (Number_toString host n)) VUndefined)) ∧
  (∀ s, setter host p (VString s) w =
        stores (Expression_rejects host (heap w) (VString s) defines)
               (VExpression (VString s) defines)) ∧
  (∀ value conditions,
     typeof value = "object" → defined value = true →
     member host (heap w) value "conditions" = Return conditions →
     setter host p value w =
       if defined conditions
       then stores (ConditionsExpression_rejects host (heap w) value defines)
                   (VConditionsExpression value defines)
       else (Return tt, assigned p value w)) ∧
  setter host p VUndefined w = (Return tt, assigned p VUndefined w).
Proof.
  intros Hp defines stores. subst stores.
  repeat split; intros; rewrite setter_unfold by done; rewrite getExpression_unfold;
    fold defines; cbn [fst].
  - destruct b; cbn [String_of]; by destruct (Expression_rejects _ _ _ _).
  - cbn [String_of]. by destruct (Expression_rejects _ _ _ _).
  - by destruct (Expression_rejects _ _ _ _).
  - destruct value; try discriminate;
      match goal with H : member _ _ _ _ = _ |- _ => cbn in H; injection H as <- end;
      cbn [entries];
      match goal with |- context [defined ?x] => destruct (defined x) end;
      try done; by destruct (ConditionsExpression_rejects _ _ _ _).
  - done.
Qed.

(** ** The raw style *)

Lemma reify_entries_mono (f g : jsval number → option (tree number)) ob ts :
  (∀ v t, f v = Some t → g v = Some t) →
  reify_entries f ob = Some ts → reify_entries g ob = Some ts.
Proof.
  intros Hfg. revert ts. induction ob as [|[k v] ob IH]; intros ts; cbn; [ done | ].
  destruct (f v) as [t|] eqn:Hf; [ | done ].
  destruct (reify_entries f ob) as [ts'|]; [ | done ].
  intros [= <-]. by rewrite (Hfg v t Hf), (IH ts' eq_refl).
Qed.

(** Growing the store does not change what a value stands for. *)
Lemma reify_app d h h3 v t : reify d h v = Some t → reify d (h ++ h3)%list v = Some t.
Proof.
  revert v t. induction d as [|d IH]; intros v t; destruct v; cbn; try done.
  destruct (h !! l) as [ob|] eqn:Hl; [ | done ].
  rewrite (lookup_app_l_Some _ _ _ _ Hl).
  destruct (reify_entries (reify d h) ob) as [ts|] eqn:Hts; [ | done ].
  intros [= <-]. by rewrite (reify_entries_mono _ _ _ _ (IH) Hts).
Qed.

(** [clone] succeeds on a value that stands for a tree within the depth.
    It only appends to the store, and what the copy stands for depends on
    the appended objects alone: the objects that were there before may
    change, and further objects may follow. *)
Lemma clone_spec d h v t :
  reify d h v = Some t →
  ∃ v' h2, clone host d v h = (Return v', (h ++ h2)%list) ∧
    ∀ hx h3, length hx = length h → reify d (hx ++ h2 ++ h3)%list v' = Some t.
Proof.
  revert h v t. induction d as [|d IH]; intros h v t Hv.
  { destruct v; try discriminate; cbn in Hv; injection Hv as <-;
      eexists _, []; (split; [ cbn; by rewrite app_nil_r | done ]). }
  assert (∀ ob h ts, reify_entries (reify d h) ob = Some ts →
            ∃ ob' h2, clone_entries (clone host d) ob h = (Return ob', (h ++ h2)%list) ∧
              ∀ hx h3, length hx = length h →
                reify_entries (reify d (hx ++ h2 ++ h3)%list) ob' = Some ts) as Hentries.
  { clear h v t Hv. induction ob as [|[k x] ob IHob]; intros h ts Hts; cbn in Hts.
    { injection Hts as <-. exists [], []. split; [ cbn; by rewrite app_nil_r | done ]. }
    destruct (reify d h x) as [t|] eqn:Hx; [ | done ].
    destruct (reify_entries (reify d h) ob) as [ts'|] eqn:Hob; [ | done ].
    injection Hts as <-.
    destruct (IH h x t Hx) as (x' & h2a & Hclone & Hx').
    destruct (IHob (h ++ h2a)%list ts') as (r & h2b & Hrest & Hr).
    { eapply reify_entries_mono; [ | exact Hob ]. intros. by apply reify_app. }
    exists ((k, x') :: r), (h2a ++ h2b)%list. split.
    - cbn. rewrite Hclone, Hrest. by rewrite app_assoc.
    - intros hx h3 Hlen. cbn.
      rewrite <- (app_assoc h2a h2b h3). rewrite (Hx' hx (h2b ++ h3)%list Hlen).
      rewrite (app_assoc hx h2a). rewrite Hr; [ done | ].
      rewrite !length_app. by rewrite Hlen. }
  destruct v; try (cbn in Hv; injection Hv as <-;
    eexists _, []; (split; [ cbn; by rewrite app_nil_r | done ])).
  cbn in Hv. destruct (h !! l) as [ob|] eqn:Hl; [ | done ].
  destruct (reify_entries (reify d h) ob) as [ts|] eqn:Hts; [ | done ].
  injection Hv as <-.
  destruct (Hentries ob h ts Hts) as (ob' & h2 & Hclone & Hob').
  exists (VObject (length (h ++ h2)%list)), (h2 ++ [ob'])%list. split.
  - cbn [clone entries]. rewrite Hl. cbn [default from_option id].
    rewrite Hclone. by rewrite app_assoc.
  - intros hx h3 Hlen. cbn [reify].
    assert ((hx ++ (h2 ++ [ob']) ++ h3)%list !! length (h ++ h2)%list = Some ob') as ->.
    { rewrite <- !app_assoc. rewrite app_assoc.
      rewrite lookup_app_r by (rewrite !length_app; lia).
      replace (length (h ++ h2)%list - length (hx ++ h2)%list) with 0
        by (rewrite !length_app; lia).
      done. }
    rewrite <- app_assoc. by rewrite (Hob' hx ([ob'] ++ h3)%list Hlen).
Qed.

Lemma kept_app n h2 h h' : kept n h2 h → kept n h2 (h ++ h')%list.
Proof.
  intros (hx & h3 & -> & Hn). exists hx, (h3 ++ h')%list.
  split; [ by rewrite <- !app_assoc | done ].
Qed.

Lemma kept_length n h2 h : kept n h2 h → n + length h2 ≤ length h.
Proof. intros (hx & h3 & -> & Hn). rewrite !length_app. lia. Qed.

Lemma kept_alter n h2 h f l :
  l < n ∨ n + length h2 ≤ l → kept n h2 h → kept n h2 (alter f l h).
Proof.
  intros Hl (hx & h3 & -> & Hn). destruct Hl as [Hl|Hl].
  - exists (alter f l hx), h3. split; [ | by rewrite length_alter ].
    apply alter_app_l. lia.
  - exists hx, (alter f (l - length hx - length h2) h3). split; [ | done ].
    rewrite alter_app_r_alt by lia. f_equal.
    rewrite alter_app_r_alt by lia. done.
Qed.

Lemma footprint_assigned n h2 v' p e w :
  footprint n h2 v' w → footprint n h2 v' (assigned p e w).
Proof.
  unfold footprint. destruct (assigned_rest p e w) as (-> & -> & _). done.
Qed.

Lemma footprint_defineProperty n h2 v' l k v w :
  l < n ∨ n + length h2 ≤ l →
  footprint n h2 v' w → footprint n h2 v' (defineProperty l k v w).2.
Proof. intros Hl [Hs Hk]. split; [ done | by apply kept_alter ]. Qed.

Lemma footprint_assign n h2 v' l k v w :
  l < n ∨ n + length h2 ≤ l →
  footprint n h2 v' w → footprint n h2 v' (assign (VObject l) k v w).2.
Proof.
  intros Hl Hw. cbn [assign]. destruct (String.eqb k "__proto__"); [ exact Hw | ].
  by apply footprint_defineProperty.
Qed.

(** A shader function leaves the store as it is or as its expression's
    [getShaderFunction] wrote it, through [shaderState]; it never touches
    [_style]. *)
Lemma memoized_heap q fn ap ss w :
  (heap (memoized host q fn ap ss w).2 = heap w ∨
   ∃ writes, heap (memoized host q fn ap ss w).2 = writeAll ss writes (heap w)) ∧
  _style (memoized host q fn ap ss w).2 = _style w.
Proof.
  unfold memoized. destruct (shaderReady q w); [ by split; [ left | ] | ].
  destruct (_ready w); cbn [negb];
    [ destruct (defined _);
      [ destruct (getShaderFunction _ _ _ _ _ _ _) as [[f | x] ws] | ] | ];
    (split; [ | by destruct q ]);
    first [ left; by destruct q | right; exists ws; by destruct q ].
Qed.

Lemma kept_writeAll n h2 h ss ws :
  match ss with VObject l => l < n ∨ n + length h2 ≤ l | _ => True end →
  kept n h2 h → kept n h2 (writeAll ss ws h).
Proof. destruct ss; cbn [writeAll]; try done. intros Hl Hk. by apply kept_alter. Qed.

Lemma run_footprint n m h2 v' o w :
  n + length h2 ≤ m →
  callerOp n m o → _readyPromise w ≠ Pending →
  footprint n h2 v' w → footprint n h2 v' (run host o w).
Proof.
  intros Hm Ho Hp Hw. destruct o; cbn [run].
  - by rewrite getter_unfold.
  - rewrite setter_assigned. case_decide; [ by apply footprint_assigned | ].
    destruct (getExpression host value w).1; [ by apply footprint_assigned | done ].
  - by rewrite get_style_unfold.
  - done.
  - done.
  - rewrite shaderFunction_memoized. destruct Hw as [Hs Hk]. unfold footprint.
    destruct (memoized_heap q functionName0 attributePrefix0 shaderState0 w)
      as [[-> | [ws ->]] ->]; [ done | ].
    split; [ done | ]. apply kept_writeAll; [ | done ].
    destruct shaderState0; try done. cbn in Ho. lia.
  - by destruct (_readyPromise w).
  - by destruct (_readyPromise w).
  - destruct Hw as [Hs Hk]. split; [ done | by apply kept_app ].
  - apply footprint_defineProperty; [ cbn in Ho; lia | done ].
Qed.

Lemma runAll_footprint n m h2 v' os w :
  n + length h2 ≤ m →
  Forall (callerOp n m) os → _readyPromise w ≠ Pending →
  footprint n h2 v' w → footprint n h2 v' (runAll host os w).
Proof.
  intros Hm Hos. revert w. induction Hos as [|o os Ho _ IH]; intros w Hp Hw; [ done | ].
  rewrite runAll_cons. apply IH; [ | by apply (run_footprint n m) ].
  destruct (run_settled o w Hp) as [_ ->]. done.
Qed.

(** [setup] leaves the copy it made in [_style], its objects in place. *)
Lemma setup_footprint styleJson v' h2 w :
  clone host (stackDepth host) styleJson (heap w) = (Return v', (heap w ++ h2)%list) →
  (setup host styleJson w).1 = Return tt →
  footprint (length (heap w)) h2 v' (setup host styleJson w).2.
Proof.
  intros Hclone. set (n := length (heap w)).
  set (P := footprint n h2 v').
  assert (hoare (λ w0, w0 = w) (setup host styleJson) (λ _, P) (λ _, True)) as H.
  { unfold setup.
    eapply hoare_bind with (Q := λ a w1, a = v' ∧ kept n h2 (heap w1)).
    { intros w0 ->. unfold deepClone. rewrite Hclone. split; [ done | ].
      exists (heap w), []. by rewrite app_nil_r. }
    intros style.
    eapply hoare_bind with (Q := λ _, P);
      [ apply hoare_update; by intros w1 [-> Hk] | intros _ ].
    eapply hoare_bind with (Q := λ _, P).
    { eapply hoare_weaken with (P' := P) (Q' := λ _, P) (E' := P); [ | done | done | done ].
      apply assignAll_keeps. intros p e w1. apply footprint_assigned. }
    intros _.
    eapply hoare_bind with (Q := λ a w1, P w1 ∧ ∃ m, a = VObject m ∧ n + length h2 ≤ m).
    { intros w1 [Hs Hk]. split; [ split; [ done | by apply kept_app ] | ].
      eexists. split; [ done | ]. by apply kept_length. }
    intros meta.
    eapply hoare_bind with (Q := λ _ w1, P w1 ∧ ∃ m, meta = VObject m ∧ n + length h2 ≤ m);
      [ intros w1 Hw1; exact Hw1 | intros metaJson ].
    eapply hoare_bind with (Q := λ _, P).
    { intros w1 [Hw1 (m & -> & Hm)]. revert w1 Hw1.
      eapply hoare_weaken with (Q' := λ _, P) (E' := P); [ | done | done | done ].
      destruct (defined metaJson); [ | apply hoare_ret ].
      apply preserves_bind; [ apply hoare_read | intros defines ].
      apply preserves_bind; [ apply hoare_read | intros keys ].
      apply wrapMeta_keeps. intros k e w1 Hw1.
      pose proof (footprint_assign n h2 v' m k e w1 (or_intror Hm) Hw1) as H.
      destruct (assign (VObject m) k e w1) as [[[]|x] w2]; exact H. }
    intros _.
    eapply hoare_bind with (Q := λ _, P).
    { apply hoare_update. intros w1 Hw1. apply (footprint_assigned n h2 v' _meta meta w1 Hw1). }
    intros _. apply hoare_update. by intros w1 Hw1. }
  intros Hret. specialize (H w eq_refl).
  destruct (setup host styleJson w) as [[[]|x] w']; [ exact H | discriminate ].
Qed.

Lemma thenSetup_rawStyle styleJson t w :
  _ready w = false →
  reify (stackDepth host) (heap w) styleJson = Some t →
  _ready (thenSetup host styleJson w) = true →
  rawStyleIs host t (length (heap w)) (thenSetup host styleJson w).
Proof.
  intros Hf Ht Hr.
  destruct (clone_spec _ _ _ _ Ht) as (v' & h2 & Hclone & Hv').
  destruct (thenSetup_ready styleJson w) as [Hr' Hp]. rewrite Hr' in Hr.
  destruct (setup host styleJson w).1 as [[]|x] eqn:Hret;
    [ | cbn in Hr; congruence ].
  pose proof (setup_footprint styleJson v' h2 w Hclone Hret) as Hfoot.
  assert (footprint (length (heap w)) h2 v' (thenSetup host styleJson w)) as Hfoot'.
  { unfold thenSetup. destruct (setup host styleJson w) as [[[]|x] w']; [ | discriminate ].
    exact Hfoot. }
  exists v'. intros os Hos w'.
  assert (_readyPromise (thenSetup host styleJson w) ≠ Pending) as Hsettled
    by (by rewrite Hp).
  assert (length (heap w) + length h2 ≤ length (heap (thenSetup host styleJson w)))
    as Hlen by apply (kept_length _ _ _ (proj2 Hfoot')).
  destruct (runAll_footprint _ _ _ _ os _ Hlen Hos Hsettled Hfoot')
    as [Hs (hx & h3 & Hh & Hn)].
  fold w' in Hs, Hh. split.
  - rewrite get_style_unfold. subst w'. rewrite runAll_ready_mono; [ by rewrite Hs | ].
    rewrite Hr'. done.
  - rewrite Hh. by apply Hv'.
Qed.

(** C6.  The [style] getter of a ready style returns a deep clone of the
    document it was set up from, be it the inline document given to the
    constructor or the document the pending load resolved to: what it
    returns stands for the same tree as the document did at that moment,
    and keeps doing so whatever the caller then writes into the objects of
    the original document, or into those it makes later, and whatever it
    does to the style, short of writing into the copy itself. *)
Theorem style_getter_returns_a_deep_clone styleJson t :
  (∀ h, reify (stackDepth host) h styleJson = Some t →
        _ready (Cesium3DTileStyle host styleJson h) = true →
        rawStyleIs host t (length h) (Cesium3DTileStyle host styleJson h)) ∧
  (∀ w, reachable host w → _readyPromise w = Pending →
        reify (stackDepth host) (heap w) styleJson = Some t →
        _ready (run host (LoadResolved styleJson) w) = true →
        rawStyleIs host t (length (heap w)) (run host (LoadResolved styleJson) w)).
Proof.
  split.
  - intros h Ht Hr. unfold Cesium3DTileStyle in *.
    destruct (String.eqb (typeof styleJson) "string"); [ discriminate | ].
    by apply (thenSetup_rawStyle styleJson t (initial h)).
  - intros w Hw Hp Ht Hr. cbn [run] in *. rewrite Hp in *.
    apply thenSetup_rawStyle; [ | done | done ].
    destruct (reachable_consistent w Hw) as (I1 & _).
    destruct (_ready w); [ | done ]. specialize (I1 eq_refl). congruence.
Qed.

(** ** The [meta] object *)










Lemma clone_entries_extends (rec : jsval number → store number → outcome (jsval number) * store number) ob h :
  (∀ v h, ∃ h2, (rec v h).2 = (h ++ h2)%list) →
  ∃ h2, (clone_entries rec ob h).2 = (h ++ h2)%list.
Proof.
  intros Hrec. revert h. induction ob as [|[k v] ob IH]; intros h; cbn.
  { exists []. by rewrite app_nil_r. }
  destruct (Hrec v h) as (h2a & Ha). destruct (rec v h) as [[v'|x] h1]; cbn in Ha; subst h1.
  - destruct (IH (h ++ h2a)%list) as (h2b & Hb).
    destruct (clone_entries rec ob (h ++ h2a)%list) as [[r|x] h2']; cbn in Hb; subst h2';
      exists (h2a ++ h2b)%list; by rewrite app_assoc.
  - by exists h2a.
Qed.

(** [clone] only appends to the store, however it ends. *)
Lemma clone_extends d v h : ∃ h2, (clone host d v h).2 = (h ++ h2)%list.
Proof.
  revert v h. induction d as [|d IH]; intros v h;
    (destruct v; cbn; try (exists []; by rewrite app_nil_r)).
  destruct (clone_entries_extends (clone host d) (default [] (h !! l)) h IH) as (h2 & H2).
  destruct (clone_entries (clone host d) (default [] (h !! l)) h) as [[ob|x] h'];
    cbn in H2; subst h'; cbn.
  - exists (h2 ++ [ob])%list. by rewrite app_assoc.
  - by exists h2.
Qed.








(** * Further properties of the style object *)

(** ** The promise and the flag *)

Lemma run_api_style o w : isLoad o = false → _style (run host o w) = _style w.
Proof.
  intros Ho. destruct o; try discriminate; cbn [run].
  - by rewrite getter_unfold.
  - rewrite setter_assigned.
    assert (∀ e', _style (assigned p e' w) = _style w) as Hk
      by (intros e'; by destruct (assigned_rest p e' w) as (_ & -> & _)).
    case_decide; [ subst p; apply Hk | ].
    destruct (getExpression host value w).1; [ apply Hk | done ].
  - by rewrite get_style_unfold.
  - done.
  - done.
  - rewrite shaderFunction_memoized. apply memoized_heap.
  - done.
  - done.
Qed.

Lemma run_promiseAgrees o w : promiseAgrees w → promiseAgrees (run host o w).
Proof.
  intros Hw. destruct (isLoad o) eqn:Ho.
  - destruct o; try discriminate; cbn [run].
    + destruct (_readyPromise w) eqn:Hp;
        [ | exact Hw | exact Hw ].
      destruct (thenSetup_ready styleJson w) as [Hr Hq]. split.
      * intros Hf. rewrite Hr. rewrite Hq in Hf.
        by destruct (setup host styleJson w).1.
      * rewrite Hq. by destruct (setup host styleJson w).1.
    + destruct (_readyPromise w) eqn:Hp;
        [ by split | exact Hw | exact Hw ].
  - pose proof (run_api_preserves
                  (λ w', _ready w' = _ready w ∧ _readyPromise w' = _readyPromise w) o w
                  (ready_promise_api_stable _ _) Ho (conj eq_refl eq_refl)) as [Hr Hq].
    unfold promiseAgrees in *. rewrite Hr, Hq, run_api_style by done. exact Hw.
Qed.

Lemma reachable_promiseAgrees w : reachable host w → promiseAgrees w.
Proof.
  induction 1 as [style h | o w _ IH]; [ | by apply run_promiseAgrees ].
  unfold Cesium3DTileStyle. destruct (String.eqb _ _); [ by split | ].
  destruct (thenSetup_ready style (initial h)) as [Hr Hq]. split.
  - intros Hf. rewrite Hr. rewrite Hq in Hf.
    by destruct (setup host style (initial h)).1.
  - rewrite Hq. by destruct (setup host style (initial h)).1.
Qed.

(** X1.  On every style that can arise, [ready] is true exactly when
    [readyPromise] is fulfilled: a pending or rejected promise goes with a
    style that is not ready, and the other way round. *)
Theorem ready_iff_fulfilled w :
  reachable host w → (_ready w = true ↔ _readyPromise w = Fulfilled).
Proof.
  intros Hw. split.
  - apply (reachable_consistent w Hw).
  - apply (reachable_promiseAgrees w Hw).
Qed.

(** X2.  A compilation that throws is not tried again.  When the
    expression's [getShaderFunction] throws, the accessor throws the same
    error with its flag already set and its cache not updated; every
    further call then returns the value cached before that call, left over
    from the previous expression or [undefined], without throwing and
    without calling [getShaderFunction], until the property is assigned. *)
Theorem failed_compilation_is_not_retried q fn ap ss x w :
  _ready w = true → shaderReady q w = false →
  defined (field w (shaderProperty q)) = true →
  (getShaderFunction host (heap w) (field w (shaderProperty q)) fn ap ss (returnType q)).1
    = Throw x →
  let w1 := (shaderFunction host q fn ap ss w).2 in
  (shaderFunction host q fn ap ss w).1 = Throw x ∧
  shaderReady q w1 = true ∧ shaderCache q w1 = shaderCache q w ∧
  ∀ os fn' ap' ss',
    Forall (λ o, sets q o = false) os →
    let w2 := runAll host os w1 in
    shaderFunction host q fn' ap' ss' w2 = (Return (shaderCache q w), w2) ∧
    compiledFor q w2 = compiledFor q w1.
Proof.
  intros Hr Hflag Hd Hthrow w1.
  assert (∃ writes, shaderFunction host q fn ap ss w
          = (Throw x, written ss writes
                        (logCall (field w (shaderProperty q)) fn ap ss (returnType q)
                           (with_shaderReady q true w)))) as [writes Hcall].
  { rewrite shaderFunction_memoized. unfold memoized.
    rewrite Hflag, Hr, Hd. cbn [negb].
    destruct (getShaderFunction _ _ _ _ _ _ _) as [r ws]. cbn [fst] in Hthrow. subst r.
    by exists ws. }
  assert (shaderReady q w1 = true) as Hflag1 by (subst w1; rewrite Hcall; by destruct q).
  assert (shaderCache q w1 = shaderCache q w) as Hcache1
    by (subst w1; rewrite Hcall; by destruct q).
  split; [ by rewrite Hcall | split; [ done | split; [ done | ] ] ].
  intros os fn' ap' ss' Hos w2.
  destruct (runAll_keeps q os w1 Hflag1 Hos) as (Hflag2 & Hcache2 & Hlog).
  fold w2 in Hflag2, Hcache2, Hlog. split; [ | done ].
  rewrite shaderFunction_cached by done. by rewrite Hcache2, Hcache1.
Qed.

(** X8.  While the load is pending the style holds no raw style, so an
    expression string assigned then is built without any [defines]: the
    setter calls [new Expression(value, undefined)]. *)
Theorem pending_style_has_no_defines p s w :
  reachable host w → _readyPromise w = Pending → p ≠ _meta →
  _style w = VUndefined ∧
  setter host p (VString s) w =
    match Expression_rejects host (heap w) (VString s) VUndefined with
    | None => (Return tt, assigned p (VExpression (VString s) VUndefined) w)
    | Some e => (Throw e, w)
    end.
Proof.
  intros Hw Hp Hm. destruct (reachable_promiseAgrees w Hw) as [_ Hs].
  specialize (Hs Hp). split; [ done | ].
  rewrite setter_unfold by done. rewrite getExpression_unfold. cbn [fst].
  unfold memberOrEmpty. rewrite Hs. cbn [defined].
  by destruct (Expression_rejects _ _ _ _).
Qed.

(** X6.  A style constructed without a document, or from [null], a boolean
    or a number, is ready when the constructor returns, whatever the
    collaborators: no expression is built, every property is [undefined],
    the three flags are clear, [_style] holds the argument and [meta] is a
    new empty object. *)
Theorem style_without_document_is_ready style h :
  (style = VUndefined ∨ style = VNull ∨ (∃ b, style = VBool b) ∨ (∃ n, style = VNumber n)) →
  let w := Cesium3DTileStyle host style h in
  _ready w = true ∧ _readyPromise w = Fulfilled ∧ _style w = style ∧
  heap w = (h ++ [[]])%list ∧ field w _meta = VObject (length h) ∧
  (∀ p, p ≠ _meta → field w p = VUndefined) ∧
  (∀ q, shaderReady q w = false ∧ shaderCache q w = VUndefined) ∧
  compiled w = [].
Proof.
  intros Hs w. subst w.
  destruct Hs as [->|[->|[[b ->]|[n ->]]]];
    unfold Cesium3DTileStyle, thenSetup, setup, deepClone;
    destruct (stackDepth host);
    (repeat split; try reflexivity;
     try (match goal with q : shaderKind |- _ => destruct q; reflexivity end);
     intros p Hp; destruct p; try reflexivity; congruence).
Qed.

(** ** The store *)

Lemma extends_refl h : extends h h.
Proof. exists []. by rewrite app_nil_r. Qed.

Lemma extends_app h0 h h' : extends h0 h → extends h0 (h ++ h')%list.
Proof. intros [h1 ->]. exists (h1 ++ h')%list. by rewrite app_assoc. Qed.

Lemma extends_alter h0 h f m :
  length h0 ≤ m → extends h0 h → extends h0 (alter f m h).
Proof.
  intros Hm [h' ->]. exists (alter f (m - length h0) h').
  by apply alter_app_r_alt.
Qed.

(** [setup] leaves the objects it finds in the store as they are, however
    it ends: the copy of the document and the [meta] object come after. *)
Lemma setup_extends styleJson w : extends (heap w) (heap (setup host styleJson w).2).
Proof.
  set (h0 := heap w). set (P := λ w1 : world number, extends h0 (heap w1)).
  assert (hoare P (setup host styleJson) (λ _, P) P) as H.
  { unfold setup.
    eapply hoare_bind with (Q := λ _, P).
    { intros w1 Hw1. unfold deepClone.
      destruct (clone_extends (stackDepth host) styleJson (heap w1)) as (h2 & H2).
      destruct (clone host (stackDepth host) styleJson (heap w1)) as [[v'|x] h'];
        cbn in H2; subst h'; by apply extends_app. }
    intros style.
    eapply hoare_bind with (Q := λ _, P); [ by apply hoare_update | intros _ ].
    eapply hoare_bind with (Q := λ _, P).
    { apply assignAll_keeps. intros p e w1 Hw1. fold (assigned p e w1). unfold P.
      by destruct (assigned_rest p e w1) as (-> & _). }
    intros _.
    eapply hoare_bind with (Q := λ a w1, P w1 ∧ ∃ m, a = VObject m ∧ length h0 ≤ m).
    { intros w1 Hw1. split; [ by apply extends_app | ].
      eexists. split; [ done | ]. destruct Hw1 as [h' ->]. rewrite length_app. lia. }
    intros meta.
    eapply hoare_bind with (Q := λ _ w1, P w1 ∧ ∃ m, meta = VObject m ∧ length h0 ≤ m);
      [ intros w1 Hw1; exact Hw1 | intros metaJson ].
    eapply hoare_bind with (Q := λ _, P).
    { intros w1 [Hw1 (m & -> & Hm)]. revert w1 Hw1.
      change (preserves P
                (if defined metaJson
                 then bind (read (λ w1, memberOrEmpty host (heap w1) styleJson "defines"))
                        (λ defines, bind (read (λ w1, (entries host (heap w1) metaJson).*1))
                           (λ keys, wrapMeta host metaJson defines (VObject m) keys))
                 else ret tt)).
      destruct (defined metaJson); [ | apply hoare_ret ].
      apply preserves_bind; [ apply hoare_read | intros defines ].
      apply preserves_bind; [ apply hoare_read | intros keys ].
      apply wrapMeta_keeps. intros k e w1 Hw1. cbn [assign].
      destruct (String.eqb k "__proto__"); [ exact Hw1 | by apply extends_alter ]. }
    intros _.
    eapply hoare_bind with (Q := λ _, P); [ by apply hoare_update | intros _ ].
    by apply hoare_update. }
  apply (preserves_snd P); [ exact H | apply extends_refl ].
Qed.

Lemma lookup_writeAll l ss ws h :
  (∀ l', ss = VObject l' → l' ≠ l) → writeAll ss ws h !! l = h !! l.
Proof.
  intros Hss. destruct ss; cbn [writeAll]; try done.
  apply list_lookup_alter_ne. by apply Hss.
Qed.

(** One operation leaves the object at [l] as it is, unless it hands that
    object over to be written. *)
Lemma run_frame l (ob : object number) o w :
  touches l o = false →
  heap w !! l = Some ob → heap (run host o w) !! l = Some ob.
Proof.
  intros Ho Hl. destruct o; cbn [run].
  - by rewrite getter_unfold.
  - rewrite setter_assigned.
    assert (∀ e', heap (assigned p e' w) = heap w) as Hk
      by (intros e'; by destruct (assigned_rest p e' w) as (-> & _)).
    case_decide; [ subst p; cbn [snd]; by rewrite Hk | ].
    destruct (getExpression host value w).1; cbn [snd]; [ by rewrite Hk | done ].
  - by rewrite get_style_unfold.
  - done.
  - done.
  - rewrite shaderFunction_memoized.
    destruct (memoized_heap q functionName0 attributePrefix0 shaderState0 w)
      as [[-> | [ws ->]] _]; [ done | ].
    rewrite lookup_writeAll; [ done | ].
    intros l' ->. cbn in Ho. by apply bool_decide_eq_false in Ho.
  - destruct (_readyPromise w); [ | done | done ].
    assert (extends (heap w) (heap (thenSetup host styleJson w))) as [h' ->].
    { unfold thenSetup. pose proof (setup_extends styleJson w) as H.
      by destruct (setup host styleJson w) as [[[]|x] w']. }
    by apply lookup_app_l_Some.
  - by destruct (_readyPromise w).
  - cbn. by apply lookup_app_l_Some.
  - cbn. rewrite list_lookup_alter_ne; [ done | ].
    cbn in Ho. by apply bool_decide_eq_false in Ho.
Qed.

(** X5.  An object the caller has is changed only by what is handed over
    to be written: the caller's own write to it, or a shader-function call
    that passes it as [shaderState], into which the expression's
    [getShaderFunction] stores.  Whatever else is done with the style, the
    object is found again where it was, as it was; and the constructor
    only adds objects (the copy of the document and the [meta] object)
    after those of the caller. *)
Theorem objects_change_only_when_handed_over os w :
  (∀ l (ob : object number),
     Forall (λ o, touches l o = false) os →
     heap w !! l = Some ob → heap (runAll host os w) !! l = Some ob) ∧
  ∀ style h, extends h (heap (Cesium3DTileStyle host style h)).
Proof.
  split.
  - intros l ob Hos. revert w. induction Hos as [|o os Ho _ IH]; intros w Hl; [ done | ].
    rewrite runAll_cons. apply IH. by apply run_frame.
  - intros style h. unfold Cesium3DTileStyle.
    destruct (String.eqb _ _); [ apply extends_refl | ].
    unfold thenSetup. pose proof (setup_extends style (initial h)) as H.
    by destruct (setup host style (initial h)) as [[[]|x] w'].
Qed.

(** ** What [setup] assigns *)

Lemma getExpression_frame value w w2 :
  heap w = heap w2 → _style w = _style w2 →
  (getExpression host value w).1 = (getExpression host value w2).1.
Proof. intros Hh Hs. rewrite !getExpression_unfold. cbn [fst]. by rewrite Hh, Hs. Qed.

Lemma setupOrder_NoDup : NoDup setupOrder.
Proof. apply (bool_decide_unpack _). by vm_compute. Qed.

Lemma setupOrder_not_meta : _meta ∉ setupOrder.
Proof. apply (bool_decide_unpack _). by vm_compute. Qed.

Lemma setupOrder_complete p : p ≠ _meta → p ∈ setupOrder.
Proof. intros Hp. destruct p; try congruence; apply (bool_decide_unpack _); by vm_compute. Qed.

(** The assignments of [setup], one after the other: each property gets
    the coercion of its own entry, and a rejected entry stops the run where
    it stands. *)
Lemma assignAll_spec styleJson ps w :
  NoDup ps → _meta ∉ ps →
  let coerce p := (getExpression host
                     (memberOrEmpty host (heap w) styleJson (property_name p)) w).1 in
  let r := assignAll host styleJson ps w in
  heap r.2 = heap w ∧ _style r.2 = _style w ∧ _ready r.2 = _ready w ∧
  match r.1 with
  | Return _ =>
      (∀ p, p ∈ ps → coerce p = Return (field r.2 p)) ∧
      (∀ p, p ∉ ps → field r.2 p = field w p)
  | Throw x =>
      ∃ pre p post, ps = (pre ++ p :: post)%list ∧ coerce p = Throw x ∧
        (∀ p', p' ∈ pre → coerce p' = Return (field r.2 p')) ∧
        (∀ p', p' ∉ pre → field r.2 p' = field w p')
  end.
Proof.
  intros Hnd Hm. revert w. induction ps as [|p ps IH]; intros w coerce r.
  { subst r. cbn. repeat split. by intros p ?%elem_of_nil. }
  apply NoDup_cons in Hnd as [Hp Hnd]. apply not_elem_of_cons in Hm as [Hpm Hm].
  specialize (IH Hnd Hm).
  assert (assignAll host styleJson (p :: ps) w =
            match coerce p with
            | Return e => assignAll host styleJson ps (assigned p e w)
            | Throw x => (Throw x, w)
            end) as Heq.
  { cbn [assignAll]. unfold bind, read. rewrite setter_unfold by done.
    fold (coerce p). by destruct (coerce p). }
  subst r. rewrite Heq. clear Heq.
  destruct (coerce p) as [e|x] eqn:He.
  - set (w1 := assigned p e w).
    destruct (assigned_rest p e w) as (Hh & Hs & Hr & _). fold w1 in Hh, Hs, Hr.
    specialize (IH w1). cbn zeta in IH. rewrite Hh, Hs, Hr in IH.
    destruct IH as (H1 & H2 & H3 & H4).
    assert (∀ p', (getExpression host
                     (memberOrEmpty host (heap w) styleJson (property_name p')) w1).1
                  = coerce p') as Hco.
    { intros p'. by apply getExpression_frame. }
    split; [ done | split; [ done | split; [ done | ] ] ].
    destruct (assignAll host styleJson ps w1).1 as [[]|x].
    + destruct H4 as [H4 H5]. split.
      * intros p' [->|Hin]%elem_of_cons.
        -- rewrite (H5 p Hp). subst w1. by rewrite assigned_field_same.
        -- rewrite <- Hco. by apply H4.
      * intros p' [Hne Hnin]%not_elem_of_cons. rewrite (H5 p' Hnin).
        subst w1. by apply assigned_field_other.
    + destruct H4 as (pre & p'' & post & -> & Hx & H4 & H5).
      exists (p :: pre), p'', post. split; [ done | split; [ by rewrite <- Hco | split ] ].
      * intros p' [->|Hin]%elem_of_cons.
        -- rewrite H5; [ subst w1; by rewrite assigned_field_same | ].
           intros Hin. apply Hp, elem_of_app. by left.
        -- rewrite <- Hco. by apply H4.
      * intros p' [Hne Hnin]%not_elem_of_cons. rewrite (H5 p' Hnin).
        subst w1. by apply assigned_field_other.
  - split; [ done | split; [ done | split; [ done | ] ] ].
    exists [], p, ps. split; [ done | split; [ done | split ] ];
      [ by intros p' ?%elem_of_nil | done ].
Qed.

Lemma setup_phases styleJson w :
  setup host styleJson w =
    match clone host (stackDepth host) styleJson (heap w) with
    | (Return v', h1) =>
        match assignAll host styleJson setupOrder (with_style v' (with_heap h1 w)) with
        | (Return _, wa) => finishSetup host styleJson wa
        | (Throw x, wa) => (Throw x, wa)
        end
    | (Throw x, h1) => (Throw x, with_heap h1 w)
    end.
Proof.
  unfold setup, finishSetup, bind at 1, deepClone.
  destruct (clone host (stackDepth host) styleJson (heap w)) as [[v'|x] h1]; [ | done ].
  unfold bind at 1, update at 1. unfold bind at 1.
  by destruct (assignAll host styleJson setupOrder _) as [[[]|x] wa].
Qed.

(** The last statements of [setup] touch no property but [meta]. *)
Lemma finishSetup_fields styleJson w :
  _style (finishSetup host styleJson w).2 = _style w ∧
  ∀ p, p ≠ _meta → field (finishSetup host styleJson w).2 p = field w p.
Proof.
  set (P := λ w1 : world number,
         _style w1 = _style w ∧ ∀ p, p ≠ _meta → field w1 p = field w p).
  assert (∀ h' w1, P w1 → P (with_heap h' w1)) as Hheap by (by intros h' w1 [? ?]).
  assert (preserves P (finishSetup host styleJson)) as H.
  { unfold finishSetup.
    apply preserves_bind; [ intros w1 Hw1; by apply Hheap | intros meta ].
    apply preserves_bind; [ apply hoare_read | intros metaJson ].
    apply preserves_bind.
    { destruct (defined metaJson); [ | apply hoare_ret ].
      apply preserves_bind; [ apply hoare_read | intros defines ].
      apply preserves_bind; [ apply hoare_read | intros keys ].
      apply wrapMeta_keeps. intros k e w1 Hw1.
      destruct meta; cbn; try done.
      destruct (String.eqb k "__proto__"); [ done | by apply Hheap ]. }
    intros _. apply preserves_bind.
    - apply hoare_update. intros w1 [H1 H2]. split; [ done | ]. intros p Hp.
      rewrite <- (H2 p Hp). by apply (assigned_field_other _meta p meta w1).
    - intros _. apply hoare_update. by intros w1 [H1 H2]. }
  apply (preserves_snd P); [ exact H | by split ].
Qed.

(** X3.  When [setup] completes, each of the 25 expression properties
    holds the coercion of its own entry of the document and of nothing
    else: what [getExpression] returns for [styleJson.name], evaluated with
    the raw style just copied.  In particular a property the document does
    not mention is [undefined]. *)
Theorem setup_assigns_each_property styleJson v' h1 w :
  clone host (stackDepth host) styleJson (heap w) = (Return v', h1) →
  (setup host styleJson w).1 = Return tt →
  let w1 := with_style v' (with_heap h1 w) in
  let w' := (setup host styleJson w).2 in
  _style w' = v' ∧
  (∀ p, p ≠ _meta →
     (getExpression host (memberOrEmpty host h1 styleJson (property_name p)) w1).1
       = Return (field w' p)) ∧
  (∀ p, p ≠ _meta →
     memberOrEmpty host h1 styleJson (property_name p) = VUndefined →
     field w' p = VUndefined).
Proof.
  intros Hclone Hret w1 w'. subst w'. rewrite setup_phases in Hret |- *.
  rewrite Hclone in Hret |- *. fold w1 in Hret |- *.
  pose proof (assignAll_spec styleJson setupOrder w1 setupOrder_NoDup setupOrder_not_meta)
    as (_ & Hs & _ & Hfields). cbn zeta in Hfields.
  destruct (assignAll host styleJson setupOrder w1) as [[[]|x] wa]; [ | discriminate ].
  cbn [fst snd] in *. destruct Hfields as [Hfields _].
  destruct (finishSetup_fields styleJson wa) as [Hs' Hf'].
  assert (∀ p, p ≠ _meta →
            (getExpression host (memberOrEmpty host h1 styleJson (property_name p)) w1).1
            = Return (field (finishSetup host styleJson wa).2 p)) as Hall.
  { intros p Hp. rewrite (Hf' p Hp). apply Hfields. by apply setupOrder_complete. }
  split; [ by rewrite Hs', Hs | split; [ exact Hall | ] ].
  intros p Hp Hmiss. specialize (Hall p Hp). rewrite Hmiss in Hall.
  rewrite getExpression_unfold in Hall. cbn [fst] in Hall. by injection Hall as <-.
Qed.

(** X4.  [setup] is not atomic.  When the document has an entry that
    [getExpression] rejects, [setup] throws the error of the first such
    entry in the order of its assignments; the properties before it hold
    their new expressions, that property and every later one, [meta]
    included, are as they were, [_style] already holds the copy of the
    document, and [ready] is unchanged. *)
Theorem setup_stops_at_first_rejected_property styleJson v' h1 p0 x0 w :
  clone host (stackDepth host) styleJson (heap w) = (Return v', h1) →
  let w1 := with_style v' (with_heap h1 w) in
  let coerce p :=
    (getExpression host (memberOrEmpty host h1 styleJson (property_name p)) w1).1 in
  p0 ∈ setupOrder → coerce p0 = Throw x0 →
  let w' := (setup host styleJson w).2 in
  ∃ pre p post x,
    setupOrder = (pre ++ p :: post)%list ∧ coerce p = Throw x ∧
    (setup host styleJson w).1 = Throw x ∧
    (∀ p', p' ∈ pre → coerce p' = Return (field w' p')) ∧
    (∀ p', p' ∉ pre → field w' p' = field w p') ∧
    _style w' = v' ∧ heap w' = h1 ∧ _ready w' = _ready w.
Proof.
  intros Hclone w1 coerce Hin Hthrow w'. subst w'. rewrite setup_phases, Hclone.
  fold w1.
  pose proof (assignAll_spec styleJson setupOrder w1 setupOrder_NoDup setupOrder_not_meta)
    as (Hh & Hs & Hr & Hfields). cbn zeta in Hfields.
  change (heap w1) with h1 in Hh, Hfields. change (_style w1) with v' in Hs.
  change (_ready w1) with (_ready w) in Hr.
  assert (∀ p', field w1 p' = field w p') as Hw1 by done.
  destruct (assignAll host styleJson setupOrder w1) as [[[]|x] wa]; cbn [fst snd] in *.
  - destruct Hfields as [Hfields _]. specialize (Hfields p0 Hin).
    fold (coerce p0) in Hfields. congruence.
  - destruct Hfields as (pre & p & post & Hsplit & Hx & Hpre & Hrest).
    exists pre, p, post, x. by repeat split.
Qed.

(** ** Two runs of [setup] side by side *)

Implicit Types (R F : world number → world number → Prop) (S : property → Prop).

Lemma rhoare_bind {A B} R (m : M A) (k : A → M B) Q T F :
  rhoare R m Q F → (∀ a, rhoare (Q a) (k a) T F) → rhoare R (bind m k) T F.
Proof.
  intros Hm Hk w w2 HR. unfold bind. specialize (Hm w w2 HR).
  destruct (m w) as [[a|x] w'], (m w2) as [[a2|x2] w2']; try done.
  destruct Hm as [<- HQ]. apply (Hk a w' w2' HQ).
Qed.

Lemma rhoare_ret {A} R (a : A) F : rhoare R (ret a) (λ _, R) F.
Proof. by intros w w2 HR. Qed.

Lemma rhoare_read {A} R (f : world number → A) F :
  (∀ w w2, R w w2 → f w = f w2) → rhoare R (read f) (λ _, R) F.
Proof. intros Hf w w2 HR. split; [ by apply Hf | done ]. Qed.

Lemma rhoare_update R f (Q : unit → world number → world number → Prop) F :
  (∀ w w2, R w w2 → Q tt (f w) (f w2)) → rhoare R (update f) Q F.
Proof. intros Hf w w2 HR. split; [ done | by apply Hf ]. Qed.

Lemma rhoare_weaken {A} R (m : M A) (Q Q' : A → world number → world number → Prop) F F' :
  rhoare R m Q' F' → (∀ a w w2, Q' a w w2 → Q a w w2) → (∀ w w2, F' w w2 → F w w2) →
  rhoare R m Q F.
Proof.
  intros Hm HQ HE w w2 HR. specialize (Hm w w2 HR).
  destruct (m w) as [[a|x] w'], (m w2) as [[a2|x2] w2']; try done;
    destruct Hm as [<- H]; split; auto.
Qed.

Lemma alike_weaken S S' w w2 : (∀ p, S p → S' p) → alike S' w w2 → alike S w w2.
Proof. intros HS (Hh & Hs & Hf). split; [ done | split; [ done | auto ] ]. Qed.

Lemma alike_heap S h' w w2 : alike S w w2 → alike S (with_heap h' w) (with_heap h' w2).
Proof. by intros (Hh & Hs & Hf). Qed.

Lemma alike_assigned S p e w w2 :
  alike S w w2 → alike (λ p', S p' ∨ p' = p) (assigned p e w) (assigned p e w2).
Proof.
  intros (Hh & Hs & Hf). unfold alike.
  destruct (assigned_rest p e w) as (-> & -> & _).
  destruct (assigned_rest p e w2) as (-> & -> & _).
  split; [ done | split; [ done | ] ]. intros p' Hp'.
  destruct (decide (p' = p)) as [->|Hne]; [ by rewrite !assigned_field_same | ].
  rewrite !assigned_field_other by done. destruct Hp' as [Hp'|Hp']; [ auto | done ].
Qed.

Lemma setter_alike S p value :
  rhoare (alike S) (setter host p value) (λ _, alike (λ p', S p' ∨ p' = p)) (alike S).
Proof.
  intros w w2 Ha. pose proof Ha as (Hh & Hs & _). rewrite !setter_assigned.
  rewrite (getExpression_frame value w w2 Hh Hs).
  case_decide; [ subst p; split; [ done | by apply alike_assigned ] | ].
  destruct (getExpression host value w2).1; (split; [ done | ]);
    [ by apply alike_assigned | done ].
Qed.

Lemma assignAll_alike S styleJson ps :
  rhoare (alike S) (assignAll host styleJson ps) (λ _, alike (λ p, S p ∨ p ∈ ps)) (alike S).
Proof.
  revert S. induction ps as [|p ps IH]; intros S; cbn [assignAll].
  { intros w w2 Ha. split; [ done | ]. eapply alike_weaken; [ | exact Ha ].
    by intros p [?|?%elem_of_nil]. }
  eapply rhoare_bind with (Q := λ _, alike S).
  { apply rhoare_read. intros w w2 (Hh & _). by rewrite Hh. }
  intros value.
  eapply rhoare_bind; [ apply setter_alike | intros ? ].
  eapply rhoare_weaken; [ apply IH | | ].
  - intros ? w w2 Ha. eapply alike_weaken; [ | exact Ha ].
    intros p' [?|[->|?]%elem_of_cons]; auto.
  - intros w w2 Ha. eapply alike_weaken; [ | exact Ha ]. intros p' Hp'. by left.
Qed.

Lemma wrapMeta_alike S metaJson defines meta keys :
  rhoare (alike S) (wrapMeta host metaJson defines meta keys) (λ _, alike S) (alike S).
Proof.
  induction keys as [|k keys IH]; cbn [wrapMeta]; [ apply rhoare_ret | ].
  eapply rhoare_bind with (Q := λ _, alike S).
  { intros w w2 Ha. pose proof Ha as (Hh & _). unfold lift. rewrite Hh.
    by destruct (hasOwnProperty host (heap w2) metaJson k). }
  intros isOwn.
  eapply rhoare_bind with (Q := λ _, alike S); [ | intros ?; exact IH ].
  destruct isOwn; [ | apply rhoare_ret ].
  eapply rhoare_bind with (Q := λ _, alike S).
  { apply rhoare_read. intros w w2 (Hh & _). by rewrite Hh. }
  intros value.
  eapply rhoare_bind with (Q := λ _, alike S).
  { intros w w2 Ha. pose proof Ha as (Hh & _). unfold new_Expression. rewrite Hh.
    by destruct (Expression_rejects host (heap w2) value defines). }
  intros e. intros w w2 Ha. pose proof Ha as (Hh & Hs & Hf).
  destruct meta; cbn; try done.
  destruct (String.eqb k "__proto__"); cbn; [ done | ].
  split; [ done | ]. rewrite Hh.
  by apply (alike_heap S _ w w2).
Qed.

(** The outcome of [setup], the store, the raw style and, when it
    completes, every property depend on the store alone, not on what the
    style held before. *)
Lemma setup_alike S styleJson :
  rhoare (alike S) (setup host styleJson) (λ _, alike (λ _, True)) (alike S).
Proof.
  unfold setup.
  eapply rhoare_bind with (Q := λ _, alike S).
  { intros w w2 Ha. pose proof Ha as (Hh & _). unfold deepClone. rewrite Hh.
    destruct (clone host (stackDepth host) styleJson (heap w2)) as [[v'|x] h'];
      (split; [ done | by apply alike_heap ]). }
  intros style.
  eapply rhoare_bind with (Q := λ _, alike S).
  { apply rhoare_update. by intros w w2 (Hh & Hs & Hf). }
  intros ?.
  eapply rhoare_bind; [ apply assignAll_alike | intros ?; cbv beta ].
  set (S' := λ p, S p ∨ p ∈ setupOrder).
  eapply rhoare_weaken with (Q' := λ _, alike (λ _, True)) (F' := alike S');
    [ | done | intros w w2 Ha; eapply alike_weaken; [ | exact Ha ]; unfold S'; auto ].
  eapply rhoare_bind with (Q := λ meta w w2, alike S' w w2).
  { intros w w2 Ha. pose proof Ha as (Hh & _). cbn. rewrite Hh.
    split; [ done | ]. by apply alike_heap. }
  intros meta.
  eapply rhoare_bind with (Q := λ _, alike S').
  { apply rhoare_read. intros w w2 (Hh & _). by rewrite Hh. }
  intros metaJson.
  eapply rhoare_bind with (Q := λ _, alike S').
  { destruct (defined metaJson); [ | apply rhoare_ret ].
    eapply rhoare_bind with (Q := λ _, alike S').
    { apply rhoare_read. intros w w2 (Hh & _). by rewrite Hh. }
    intros defines.
    eapply rhoare_bind with (Q := λ _, alike S').
    { apply rhoare_read. intros w w2 (Hh & _). by rewrite Hh. }
    intros keys. apply wrapMeta_alike. }
  intros ?.
  eapply rhoare_bind with (Q := λ _, alike (λ _, True)).
  { apply rhoare_update. intros w w2 Ha.
    pose proof (alike_assigned S' _meta meta w w2 Ha) as Ha'.
    eapply alike_weaken; [ | exact Ha' ]. intros p _.
    destruct (decide (p = _meta)); [ by right | left; right ].
    by apply setupOrder_complete. }
  intros ?. apply rhoare_update. by intros w w2 (Hh & Hs & Hf).
Qed.

Lemma run_call_pending h o w : isCall o = true → pendingIn h w → pendingIn h (run host o w).
Proof.
  intros Ho Hw. destruct o; try discriminate; cbn [run].
  - by rewrite getter_unfold.
  - rewrite setter_assigned.
    assert (∀ e', pendingIn h (assigned p e' w)) as Hk.
    { intros e'. destruct Hw as (H1 & H2 & H3 & H4 & H5 & H6).
      destruct (assigned_rest p e' w) as (Hh & Hs & Hr & Hp & Hc).
      unfold pendingIn. rewrite Hh, Hs, Hr, Hp, Hc.
      repeat split; try done. intros q. by rewrite assigned_cache. }
    case_decide; [ subst p; apply Hk | ].
    destruct (getExpression host value w).1; [ apply Hk | done ].
  - by rewrite get_style_unfold.
  - done.
  - done.
  - rewrite shaderFunction_memoized. unfold memoized.
    destruct (shaderReady q w); [ done | ].
    destruct Hw as (H1 & H2 & H3 & H4 & H5 & H6). rewrite H3. cbn [negb snd].
    repeat split; try (by destruct q); intros q'; specialize (H5 q'); by destruct q, q'.
Qed.

(** X7.  Whatever a program assigns to or requests from a style built
    from a url while its load is pending leaves no trace once the load
    resolves: [setup] ends as it does for an inline style built from the
    same document in the same store, with the same copy in [_style], the
    same store, the same promise and flag, nothing cached or compiled, and,
    when it completes, the same expression in every property and the three
    shader flags clear. *)
Theorem pending_calls_leave_no_trace url h os styleJson :
  Forall (λ o, isCall o = true) os →
  String.eqb (typeof styleJson) "string" = false →
  let loaded := run host (LoadResolved styleJson)
                  (runAll host os (Cesium3DTileStyle host (VString url) h)) in
  let inline := Cesium3DTileStyle host styleJson h in
  _ready loaded = _ready inline ∧ _readyPromise loaded = _readyPromise inline ∧
  heap loaded = heap inline ∧ _style loaded = _style inline ∧
  compiled loaded = [] ∧ compiled inline = [] ∧
  (∀ q, shaderCache q loaded = VUndefined ∧ shaderCache q inline = VUndefined) ∧
  (_ready inline = true →
     (∀ p, field loaded p = field inline p) ∧
     (∀ q, shaderReady q loaded = false ∧ shaderReady q inline = false)).
Proof.
  intros Hos Hobj loaded inline.
  set (w := runAll host os (Cesium3DTileStyle host (VString url) h)).
  assert (pendingIn h w) as Hw.
  { subst w. assert (pendingIn h (Cesium3DTileStyle host (VString url) h)) as H0
      by (repeat split; by intros []).
    revert H0. generalize (Cesium3DTileStyle host (VString url) h).
    induction Hos as [|o os Ho _ IH]; intros w0 H0; [ done | ].
    rewrite runAll_cons. by apply IH, run_call_pending. }
  assert (pendingIn h (initial h)) as Hi by (repeat split; by intros []).
  assert (loaded = thenSetup host styleJson w) as Hl.
  { subst loaded. cbn [run]. fold w. by destruct Hw as (_ & _ & _ & -> & _). }
  assert (inline = thenSetup host styleJson (initial h)) as Hin.
  { subst inline. unfold Cesium3DTileStyle. by rewrite Hobj. }
  rewrite Hl, Hin. clear Hl Hin loaded inline.
  assert (alike (λ _, False) w (initial h)) as Ha.
  { destruct Hw as (Hh & Hs & _). split; [ by rewrite Hh | split; [ by rewrite Hs | done ] ]. }
  pose proof (setup_alike (λ _, False) styleJson w (initial h) Ha) as Hsim.
  assert (∀ w0, pendingIn h w0 →
            compiled (thenSetup host styleJson w0) = [] ∧
            ∀ q, shaderCache q (thenSetup host styleJson w0) = VUndefined) as Hkeep.
  { intros w0 (_ & _ & _ & _ & Hc & Hlog).
    assert (stable (λ w1, compiled w1 = [] ∧ ∀ q, shaderCache q w1 = VUndefined)) as HP.
    { split.
      - intros h' w1 [? Hq]. split; [ done | intros q; specialize (Hq q); by destruct q ].
      - intros s' w1 [? Hq]. split; [ done | intros q; specialize (Hq q); by destruct q ].
      - intros p e w1 [? Hq]. fold (assigned p e w1).
        destruct (assigned_rest p e w1) as (_ & _ & _ & _ & ->). split; [ done | ].
        intros q. by rewrite assigned_cache. }
    assert (preserves (λ w1, compiled w1 = [] ∧ ∀ q, shaderCache q w1 = VUndefined)
              (setup host styleJson)) as Hpres.
    { apply setup_preserves; [ exact HP | ].
      intros w1 [? Hq]. split; [ done | intros q; specialize (Hq q); by destruct q ]. }
    pose proof (preserves_snd _ _ w0 Hpres (conj Hlog Hc)) as [H1 H2].
    unfold thenSetup. destruct (setup host styleJson w0) as [[[]|x] w']; cbn [snd] in *;
      (split; [ done | intros q; specialize (H2 q); by destruct q ]). }
  destruct (Hkeep w Hw) as [Hlog1 Hcache1]. destruct (Hkeep _ Hi) as [Hlog2 Hcache2].
  destruct (thenSetup_ready styleJson w) as [Hr1 Hp1].
  destruct (thenSetup_ready styleJson (initial h)) as [Hr2 Hp2].
  pose proof (setup_clears_flags styleJson w) as Hf1.
  pose proof (setup_clears_flags styleJson (initial h)) as Hf2.
  rewrite Hr1, Hr2, Hp1, Hp2.
  destruct Hw as (_ & _ & -> & _). cbn [_ready initial].
  unfold thenSetup in *.
  destruct (setup host styleJson w) as [[[]|x] w'],
           (setup host styleJson (initial h)) as [[[]|x2] wi']; try done;
    cbn [fst snd returned] in *.
  - destruct Hsim as [_ (Hh & Hs & Hfield)].
    repeat split; try done; try (by apply Hcache1); try (by apply Hcache2).
    + intros p. by apply Hfield.
    + specialize (Hf1 q eq_refl). by destruct q.
    + specialize (Hf2 q eq_refl). by destruct q.
  - destruct Hsim as [<- (Hh & Hs & _)].
    repeat split; try done; try (by apply Hcache1); try (by apply Hcache2).
Qed.

(** ** Reading back what was assigned *)

Lemma assigned_assigned_field p e1 e2 w p' :
  field (assigned p e2 (assigned p e1 w)) p' = field (assigned p e2 w) p'.
Proof.
  destruct (decide (p' = p)) as [->|Hne]; [ by rewrite !assigned_field_same | ].
  by rewrite !assigned_field_other.
Qed.

(** X9.  On a ready style a setter and the getters compose as a store of
    properties.  What [style.p = value] stores is read back: the getter of
    [p] then returns the value itself for [meta], and for every other
    property the expression [getExpression] made of it; when
    [getExpression] throws, so does the setter, and the style is unchanged.
    The getter of every other property returns what it did before.
    Assignments to one property do not add up: a further assignment ends
    the same way as if the earlier one had not been made and, when it
    returns, leaves every getter returning the same. *)
Theorem setter_then_getter p value w :
  _ready w = true →
  let r := setter host p value w in
  let stored := if decide (p = _meta) then Return value
                else (getExpression host value w).1 in
  (∀ e, stored = Return e → r.1 = Return tt ∧ getter p r.2 = (Return e, r.2)) ∧
  (∀ x, stored = Throw x → r = (Throw x, w)) ∧
  (∀ p', p' ≠ p → getter p' r.2 = (Return (field w p'), r.2)) ∧
  ∀ value2,
    (setter host p value2 r.2).1 = (setter host p value2 w).1 ∧
    ((setter host p value2 w).1 = Return tt →
     ∀ p', (getter p' (setter host p value2 r.2).2).1
           = (getter p' (setter host p value2 w).2).1).
Proof.
  intros Hr r stored.
  assert (r = match stored with
              | Return e => (Return tt, assigned p e w)
              | Throw x => (Throw x, w)
              end) as Hset.
  { subst r stored. rewrite setter_assigned. case_decide; [ by subst p | done ]. }
  assert (r.2 = w ∨ ∃ e, r.2 = assigned p e w) as Hcases.
  { rewrite Hset. destruct stored; [ right; by eexists | by left ]. }
  assert (heap r.2 = heap w ∧ _style r.2 = _style w ∧ _ready r.2 = true) as (Hh & Hs & Hr').
  { destruct Hcases as [->|[e ->]]; [ done | ].
    by destruct (assigned_rest p e w) as (-> & -> & -> & _). }
  split; [ | split; [ | split ] ].
  - intros e He. rewrite getter_unfold, Hr'. rewrite Hset, He. cbn [fst snd].
    split; [ done | ]. by rewrite assigned_field_same.
  - intros x Hx. by rewrite Hset, Hx.
  - intros p' Hp'. rewrite getter_unfold, Hr'. do 2 f_equal.
    destruct Hcases as [->|[e ->]]; [ done | by apply assigned_field_other ].
  - intros value2. rewrite !(setter_assigned p value2).
    rewrite (getExpression_frame value2 r.2 w Hh Hs).
    assert (∀ e2 p', (getter p' (assigned p e2 r.2)).1 = (getter p' (assigned p e2 w)).1)
      as Hk.
    { intros e2 p'. rewrite !getter_unfold. cbn [fst].
      destruct (assigned_rest p e2 r.2) as (_ & _ & -> & _).
      destruct (assigned_rest p e2 w) as (_ & _ & -> & _). rewrite Hr', Hr. f_equal.
      destruct Hcases as [->|[e ->]]; [ done | apply assigned_assigned_field ]. }
    case_decide; [ subst p; split; [ done | intros _; apply Hk ] | ].
    destruct (getExpression host value2 w).1; (split; [ done | ]);
      [ intros _; apply Hk | discriminate ].
Qed.

(** X10.  A style whose promise is rejected, because the load failed or
    because [setup] threw, is never read: whatever is done to it afterwards,
    the promise stays rejected with the same reason, and every property
    getter and the [style] getter throw the DeveloperError "The style is not
    loaded". *)
Theorem rejected_style_is_never_read x os p w :
  reachable host w → _readyPromise w = Rejected x →
  let w' := runAll host os w in
  _readyPromise w' = Rejected x ∧
  getter p w' = (Throw (DeveloperError notLoaded), w') ∧
  get_style w' = (Throw (DeveloperError notLoaded), w').
Proof.
  intros Hw Hp w'.
  assert (_ready w = false) as Hf.
  { destruct (_ready w) eqn:Hr; [ | done ].
    apply (reachable_consistent w Hw) in Hr. congruence. }
  destruct (runAll_settled os w) as [Hr' Hp']; [ by rewrite Hp | ].
  fold w' in Hr', Hp'. rewrite Hf in Hr'. rewrite Hp in Hp'.
  split; [ done | ]. by rewrite getter_unfold, get_style_unfold, Hr'.
Qed.

End Properties.

(** * The claims on concrete styles *)

Module Examples.
Import Demo.

Local Open Scope nat_scope.

(** The inline style right after its construction: the raw style is the
    copy at 12, the properties hold the expressions built from the original
    document with the [defines] of the copy, [meta] is a new object. *)
Example inline_style_fields :
  _style inlineStyle = VObject 12 ∧
  field inlineStyle _show = VExpression (VString "${Height} > 0") (VObject 11) ∧
  field inlineStyle _color = VConditionsExpression (VObject 1) (VObject 11) ∧
  field inlineStyle _meta = VObject 13 ∧
  field inlineStyle _font = VUndefined ∧
  heap inlineStyle !! 13 = Some [("description", VExpression (VString "${name}") (VObject 3))].
Proof. repeat split. Qed.

Example getExpression_by_kind :
  (getExpression host (VNumber 3%Z) inlineStyle).1
    = Return (VExpression (VString "3") VUndefined) ∧
  (getExpression host (VString "${tall}") inlineStyle).1
    = Return (VExpression (VString "${tall}") (VObject 11)) ∧
  (getExpression host (VString "(") inlineStyle).1
    = Throw (RuntimeError "Unclosed (") ∧
  (getExpression host (VObject 1) inlineStyle).1
    = Return (VConditionsExpression (VObject 1) (VObject 11)) ∧
  (getExpression host (VObject 4) inlineStyle).1 = Return (VObject 4) ∧
  (getExpression host VNull inlineStyle).1 = Return VUndefined.
Proof. repeat split. Qed.

Lemma getters_refuse_until_ready_witness :
  _ready urlStyle = false ∧
  getter _color urlStyle = (Throw (DeveloperError notLoaded), urlStyle).
Proof.
  split; [ reflexivity | ].
  apply (getters_refuse_until_ready host _color urlStyle). reflexivity.
Defined.

(** C1 as stated fails: on a style that is not ready, [style.show = true]
    returns and stores the expression. *)
Lemma setter_succeeds_before_ready :
  _ready urlStyle = false ∧
  (setter host _show (VBool true) urlStyle).1 = Return tt ∧
  field (setter host _show (VBool true) urlStyle).2 _show
    = VExpression (VString "true") VUndefined.
Proof. vm_compute. repeat split. Qed.

Lemma reassignment_clears_only_its_own_cache_witness :
  (shaderFunction host SShow "show" "a_" VUndefined inlineStyle).1
    = Return (VString "bool show() { return ${Height} > 0; }") ∧
  _color ≠ shaderProperty SShow ∧
  let w1 := (shaderFunction host SShow "show" "a_" VUndefined inlineStyle).2 in
  let w2 := (setter host _color (VString "color('red')") w1).2 in
  shaderFunction host SShow "show" "a_" VUndefined w2
    = (Return (VString "bool show() { return ${Height} > 0; }"), w2).
Proof.
  split; [ reflexivity | split; [ discriminate | ] ].
  apply (reassignment_clears_only_its_own_cache host SShow _color
           (VString "color('red')") "show" "a_" VUndefined
           (VString "bool show() { return ${Height} > 0; }")
           "show" "a_" VUndefined inlineStyle);
    [ reflexivity | discriminate ].
Defined.

Lemma setter_coerces_its_value_witness :
  _color ≠ _meta ∧
  setter host _color VUndefined inlineStyle
    = (Return tt, assigned _color VUndefined inlineStyle).
Proof.
  split; [ discriminate | ].
  apply (setter_coerces_its_value host _color inlineStyle). discriminate.
Defined.

(** C3 as stated fails for [meta]: its setter stores a boolean as it is,
    not as an [Expression]. *)
Lemma meta_setter_does_not_coerce :
  (setter host _meta (VBool true) inlineStyle).1 = Return tt ∧
  field (setter host _meta (VBool true) inlineStyle).2 _meta = VBool true ∧
  field (setter host _meta (VBool true) inlineStyle).2 _meta
    ≠ VExpression (VString "true") VUndefined.
Proof. vm_compute. repeat split. discriminate. Qed.

Lemma shader_function_compiled_once_witness :
  reachable host inlineStyle ∧ _ready inlineStyle = true ∧
  Forall (λ o, assigns SShow o = false) otherOps ∧
  let w1 := (shaderFunction host SShow "show" "a_" VUndefined inlineStyle).2 in
  let w2 := runAll host otherOps w1 in
  shaderFunction host SShow "show" "b_" VUndefined w2 = (Return (shaderCache SShow w1), w2).
Proof.
  assert (reachable host inlineStyle) as Hreach by apply reachable_new.
  assert (Forall (λ o : op Z, assigns SShow o = false) otherOps) as Hops
    by (repeat constructor).
  split; [ exact Hreach | split; [ reflexivity | split; [ exact Hops | ] ] ].
  apply (shader_function_compiled_once host SShow "show" "a_" VUndefined otherOps
           "show" "b_" VUndefined inlineStyle Hreach eq_refl Hops).
Defined.

Lemma ready_after_construction_witness :
  _ready inlineStyle = true ∧ _readyPromise inlineStyle = Fulfilled.
Proof.
  exact (ready_after_construction host (VObject 0) objects).
Defined.

(** C5 as stated fails: an inline style whose [setup] throws is not ready
    when the constructor returns, and never will be.  Here [show] does not
    parse, or the [meta] object cannot be enumerated. *)
Lemma inline_style_not_ready :
  _ready (Cesium3DTileStyle host (VObject 5) objects) = false ∧
  _readyPromise (Cesium3DTileStyle host (VObject 5) objects)
    = Rejected (RuntimeError "Unclosed (") ∧
  _ready (Cesium3DTileStyle host (VObject 6) objects) = false ∧
  _readyPromise (Cesium3DTileStyle host (VObject 6) objects)
    = Rejected (TypeError "hasOwnProperty is not a function").
Proof. vm_compute. repeat split. Qed.

Lemma style_getter_returns_a_deep_clone_witness :
  reify (stackDepth host) objects (VObject 0) = Some documentTree ∧
  _ready inlineStyle = true ∧
  rawStyleIs host documentTree (length objects) inlineStyle.
Proof.
  split; [ reflexivity | split; [ reflexivity | ] ].
  apply (proj1 (style_getter_returns_a_deep_clone host (VObject 0) documentTree) objects);
    reflexivity.
Defined.

(** What the getter returns is the style's own copy, not a copy of it:
    handed over as [shaderState] it is written like any other object, which
    is why the operations of [rawStyleIs] leave the copy out. *)
Example the_copy_can_be_handed_over :
  let w := runAll host [ SetProperty _color (VString "color('red')");
                         ShaderFunction SColor "color" "a_" (VObject 12) ] inlineStyle in
  (get_style inlineStyle).1 = Return (VObject 12) ∧
  (get_style w).1 = Return (VObject 12) ∧
  heap w !! 12 = Some [("show", VString "${Height} > 0"); ("color", VObject 9);
                       ("meta", VObject 10); ("defines", VObject 11);
                       ("translucent", VBool true)].
Proof. vm_compute. by repeat split. Qed.

Lemma readiness_settles_once_witness :
  reachable host urlStyle ∧ _readyPromise urlStyle = Pending ∧
  let w' := runAll host [GetProperty _show; LoadResolved (VObject 0)]
              (run host (LoadRejected (RequestError "404")) urlStyle) in
  _ready w' = false ∧ _readyPromise w' = Rejected (RequestError "404").
Proof.
  assert (reachable host urlStyle) as Hreach by apply reachable_new.
  split; [ exact Hreach | split; [ reflexivity | ] ].
  apply (proj2 (proj2 (proj2 (readiness_settles_once host GetReady urlStyle Hreach)))
           (RequestError "404") [GetProperty _show; LoadResolved (VObject 0)]).
  reflexivity.
Defined.

Lemma early_request_marks_the_cache_witness :
  reachable host urlStyle ∧ _ready urlStyle = false ∧
  shaderReady SColor urlStyle = false ∧
  shaderFunction host SColor "color" "a_" VUndefined urlStyle
    = (Throw (DeveloperError notLoaded), with_shaderReady SColor true urlStyle).
Proof.
  assert (reachable host urlStyle) as Hreach by apply reachable_new.
  split; [ exact Hreach | split; [ reflexivity | split; [ reflexivity | ] ] ].
  apply (early_request_marks_the_cache host SColor "color" "a_" VUndefined urlStyle
           Hreach eq_refl eq_refl).
Defined.

(** C8 as stated fails: a request made before the style is ready does not
    outlive the load.  [setup] assigns [show], which clears the flag, and
    the first request on the ready style compiles the expression. *)
Lemma early_request_is_forgotten_once_ready :
  let early := run host (ShaderFunction SShow "show" "a_" VUndefined) urlStyle in
  let loaded := run host (LoadResolved (VObject 0)) early in
  _ready urlStyle = false ∧
  shaderReady SShow early = true ∧ shaderCache SShow early = VUndefined ∧
  _ready loaded = true ∧ shaderReady SShow loaded = false ∧
  (shaderFunction host SShow "show" "a_" VUndefined loaded).1
    = Return (VString "bool show() { return ${Height} > 0; }") ∧
  length (compiled loaded) = 0 ∧
  length (compiled (shaderFunction host SShow "show" "a_" VUndefined loaded).2) = 1.
Proof. vm_compute. repeat split. Qed.

Lemma unset_property_has_no_shader_function_witness :
  reachable host inlineStyle ∧ _ready inlineStyle = true ∧
  field inlineStyle (shaderProperty SPointSize) = VUndefined ∧
  (shaderFunction host SPointSize "size" "a_" VUndefined inlineStyle).1
    = Return VUndefined.
Proof.
  assert (reachable host inlineStyle) as Hreach by apply reachable_new.
  split; [ exact Hreach | split; [ reflexivity | split; [ reflexivity | ] ] ].
  apply (unset_property_has_no_shader_function host SPointSize "size" "a_" VUndefined
           inlineStyle Hreach eq_refl eq_refl).
Defined.


Lemma ready_iff_fulfilled_witness :
  reachable host inlineStyle ∧
  (_ready inlineStyle = true ↔ _readyPromise inlineStyle = Fulfilled).
Proof.
  assert (reachable host inlineStyle) as Hreach by apply reachable_new.
  split; [ exact Hreach | ]. apply (ready_iff_fulfilled host inlineStyle Hreach).
Defined.

Lemma failed_compilation_is_not_retried_witness :
  _ready customShow = true ∧ shaderReady SShow customShow = false ∧
  field customShow _show = VObject 4 ∧
  let w1 := (shaderFunction host SShow "show" "a_" VUndefined customShow).2 in
  (shaderFunction host SShow "show" "a_" VUndefined customShow).1
    = Throw (TypeError "getShaderFunction is not a function") ∧
  shaderFunction host SShow "show" "a_" VUndefined w1
    = (Return (VString "bool show() { return ${Height} > 0; }"), w1).
Proof.
  assert (_ready customShow = true) as Hr by (vm_compute; reflexivity).
  assert (shaderReady SShow customShow = false) as Hflag by (vm_compute; reflexivity).
  assert (field customShow _show = VObject 4) as Hfield by (vm_compute; reflexivity).
  split; [ exact Hr | split; [ exact Hflag | split; [ exact Hfield | ] ] ].
  pose proof (failed_compilation_is_not_retried host SShow "show" "a_" VUndefined
                (TypeError "getShaderFunction is not a function") customShow
                Hr Hflag ltac:(vm_compute; reflexivity) ltac:(vm_compute; reflexivity))
    as H.
  cbv zeta in H. destruct H as (Hthrow & _ & _ & Hlater).
  cbv zeta. split; [ exact Hthrow | ].
  pose proof (proj1 (Hlater [] "show" "a_" VUndefined (List.Forall_nil _))) as Hcall.
  assert (∀ w : world Z, runAll host [] w = w) as Hnil by reflexivity.
  assert (shaderCache SShow customShow
          = VString "bool show() { return ${Height} > 0; }") as Hcache
    by (vm_compute; reflexivity).
  rewrite Hnil, Hcache in Hcall. exact Hcall.
Defined.

Lemma setup_assigns_each_property_witness :
  clone host (stackDepth host) (VObject 0) objects
    = (Return (VObject 12), (clone host (stackDepth host) (VObject 0) objects).2) ∧
  (setup host (VObject 0) (initial objects)).1 = Return tt ∧
  field (setup host (VObject 0) (initial objects)).2 _font = VUndefined ∧
  field (setup host (VObject 0) (initial objects)).2 _show
    = VExpression (VString "${Height} > 0") (VObject 11).
Proof.
  assert (clone host (stackDepth host) (VObject 0) objects
          = (Return (VObject 12), (clone host (stackDepth host) (VObject 0) objects).2))
    as Hclone by reflexivity.
  split; [ exact Hclone | split; [ reflexivity | ] ].
  destruct (setup_assigns_each_property host (VObject 0) (VObject 12) _
              (initial objects) Hclone eq_refl) as (_ & Hall & Hmissing).
  split.
  - apply (Hmissing _font); [ discriminate | reflexivity ].
  - specialize (Hall _show ltac:(discriminate)).
    cbv zeta in Hall. revert Hall.
    generalize (field (setup host (VObject 0) (initial objects)).2 _show).
    intros v Hall. vm_compute in Hall. by injection Hall as <-.
Defined.

Lemma setup_stops_at_first_rejected_property_witness :
  clone host (stackDepth host) (VObject 5) objects
    = (Return (VObject 8), (objects ++ [[("show", VString "(${Height} > 0")]])%list) ∧
  _show ∈ setupOrder ∧
  (setup host (VObject 5) (initial objects)).1 = Throw (RuntimeError "Unclosed (") ∧
  _style (setup host (VObject 5) (initial objects)).2 = VObject 8 ∧
  _ready (setup host (VObject 5) (initial objects)).2 = false.
Proof.
  assert (clone host (stackDepth host) (VObject 5) objects
          = (Return (VObject 8), (objects ++ [[("show", VString "(${Height} > 0")]])%list))
    as Hclone by reflexivity.
  assert (_show ∈ setupOrder) as Hin by (repeat constructor).
  split; [ exact Hclone | split; [ exact Hin | ] ].
  destruct (setup_stops_at_first_rejected_property host (VObject 5) (VObject 8) _
              _show (RuntimeError "Unclosed (") (initial objects) Hclone Hin eq_refl)
    as (pre & p & post & x & _ & _ & _ & _ & _ & Hs & _ & Hr).
  split; [ reflexivity | split; [ exact Hs | exact Hr ] ].
Defined.

Lemma objects_change_only_when_handed_over_witness :
  Forall (λ o : op Z, touches 0 o = false) handedOver ∧
  heap urlStyle !! 0 = Some [("show", VString "${Height} > 0"); ("color", VObject 1);
                             ("meta", VObject 2); ("defines", VObject 3)] ∧
  heap (runAll host handedOver urlStyle) !! 0
    = Some [("show", VString "${Height} > 0"); ("color", VObject 1);
            ("meta", VObject 2); ("defines", VObject 3)].
Proof.
  assert (Forall (λ o : op Z, touches 0 o = false) handedOver) as Hops
    by (repeat constructor).
  assert (heap urlStyle !! 0
          = Some [("show", VString "${Height} > 0"); ("color", VObject 1);
                  ("meta", VObject 2); ("defines", VObject 3)]) as Hl
    by (vm_compute; reflexivity).
  split; [ exact Hops | split; [ exact Hl | ] ].
  exact (proj1 (objects_change_only_when_handed_over host handedOver urlStyle) 0 _ Hops Hl).
Defined.

(** The object handed over as [shaderState] is written by the expression;
    the one the caller wrote to has changed as well. *)
Example shader_state_is_written :
  heap (runAll host handedOver urlStyle) !! 4 = Some [("translucent", VBool true)] ∧
  heap (runAll host handedOver urlStyle) !! 1 = Some [("conditions", VNull)].
Proof. vm_compute. by split. Qed.

(** A [meta] entry named [__proto__] becomes no property of the new [meta]
    object. *)
Example proto_entry_is_no_property :
  let w := Cesium3DTileStyle host (VObject 0) protoObjects in
  _ready w = true ∧ field w _meta = VObject 4 ∧
  heap w !! 4 = Some [("a", VExpression (VString "1") VUndefined)].
Proof. vm_compute. by repeat split. Qed.

Lemma style_without_document_is_ready_witness :
  _ready (Cesium3DTileStyle host VUndefined objects) = true ∧
  _readyPromise (Cesium3DTileStyle host VUndefined objects) = Fulfilled.
Proof.
  destruct (style_without_document_is_ready host VUndefined objects (or_introl eq_refl))
    as (Hr & Hp & _).
  split; [ exact Hr | exact Hp ].
Defined.

Lemma pending_calls_leave_no_trace_witness :
  Forall (λ o : op Z, isCall o = true) earlyCalls ∧
  String.eqb (typeof (VObject 0 : jsval Z)) "string" = false ∧
  _ready inlineStyle = true ∧
  ∀ p, field (run host (LoadResolved (VObject 0)) (runAll host earlyCalls urlStyle)) p
       = field inlineStyle p.
Proof.
  assert (Forall (λ o : op Z, isCall o = true) earlyCalls) as Hops by (repeat constructor).
  split; [ exact Hops | split; [ reflexivity | split; [ reflexivity | ] ] ].
  destruct (pending_calls_leave_no_trace host "style.json" objects earlyCalls (VObject 0)
              Hops eq_refl) as (_ & _ & _ & _ & _ & _ & _ & Hready).
  exact (proj1 (Hready eq_refl)).
Defined.

Lemma pending_style_has_no_defines_witness :
  reachable host urlStyle ∧ _readyPromise urlStyle = Pending ∧ _show ≠ _meta ∧
  _style urlStyle = VUndefined.
Proof.
  assert (reachable host urlStyle) as Hreach by apply reachable_new.
  assert (_show ≠ _meta) as Hne by discriminate.
  split; [ exact Hreach | split; [ reflexivity | split; [ exact Hne | ] ] ].
  exact (proj1 (pending_style_has_no_defines host _show "${tall}" urlStyle
                  Hreach eq_refl Hne)).
Defined.

Lemma setter_then_getter_witness :
  _ready inlineStyle = true ∧
  getter _color (setter host _color (VString "color('red')") inlineStyle).2
    = (Return (VExpression (VString "color('red')") (VObject 11)),
       (setter host _color (VString "color('red')") inlineStyle).2).
Proof.
  assert (_ready inlineStyle = true) as Hready by (vm_compute; reflexivity).
  split; [ exact Hready | ].
  pose proof (setter_then_getter host _color (VString "color('red')") inlineStyle Hready)
    as H.
  cbv zeta in H. destruct H as (H & _).
  apply H. vm_compute. reflexivity.
Defined.

Lemma rejected_style_is_never_read_witness :
  reachable host (Cesium3DTileStyle host (VObject 5) objects) ∧
  _readyPromise (Cesium3DTileStyle host (VObject 5) objects)
    = Rejected (RuntimeError "Unclosed (") ∧
  let w' := runAll host earlyCalls (Cesium3DTileStyle host (VObject 5) objects) in
  getter _color w' = (Throw (DeveloperError notLoaded), w').
Proof.
  assert (reachable host (Cesium3DTileStyle host (VObject 5) objects)) as Hreach
    by apply reachable_new.
  split; [ exact Hreach | split; [ reflexivity | ] ].
  exact (proj1 (proj2 (rejected_style_is_never_read host (RuntimeError "Unclosed (")
                         earlyCalls _color _ Hreach eq_refl))).
Defined.

End Examples.
